(** * ccheck: policy checks over structured configuration files

    A shallow embedding of the Go sources of [ccheck] (package [pkg],
    package [parsers] and the command [main]) together with the
    properties of the orchestration layer: decoder selection, document
    splitting, rule classification, query dispatch, aggregation and the
    exit status.

    Conventions of the embedding:
    - a Go [string] is a [string]; a [[]byte] is a [list byte];
    - a Go [error] is a value of type [error]; the [nil] error is [None];
    - a function returning [(x, err)] returns a [result];
    - a Go [map] is a [gmap]; the order in which [range] visits a map is
      not fixed by the language, so every loop over a map receives the
      visiting order as an argument (see [schedule]);
    - a run-time panic is the outcome [Panicked];
    - the policy engine, the YAML decoder and the file system are
      outside the repository: they are the fields of [Env]. *)

From Stdlib Require Import Strings.Byte Strings.Ascii Strings.String.
From Stdlib Require Import ZArith Lia.
From stdpp Require Import gmap strings list fin_maps.

Set Warnings "-register-all".

(** ** The parts of the Go standard library the sources rely on *)

Module Go.

(** *** errors *)

(** [errors.New] and [fmt.Errorf] build an error that carries its text;
    [multierr.Append] builds a flat list of errors. *)
Inductive error : Type :=
  | errorString (s : string)
  | multiError (errs : list error).

Definition errors_New (s : string) : error := errorString s.

(** [strings.Join] *)
Fixpoint strings_Join (elems : list string) (sep : string) : string :=
  match elems with
  | [] => ""
  | [e] => e
  | e :: rest => e +:+ sep +:+ strings_Join rest sep
  end.

(** The [Error()] method; a [multiError] prints its members separated by
    a semicolon. *)
Fixpoint Error (e : error) : string :=
  match e with
  | errorString s => s
  | multiError errs => strings_Join (map Error errs) "; "
  end.

(** A function that returns [(x, err)]. *)
Inductive result (A : Type) : Type :=
  | Ok (a : A)
  | Err (e : error).
Arguments Ok {A} a.
Arguments Err {A} e.

(** [multierr.Append]: [nil] is neutral, and the members of a
    [multiError] are spliced in rather than nested. *)
Definition multierr_members (e : error) : list error :=
  match e with
  | multiError errs => errs
  | errorString _ => [e]
  end.

Definition multierr_Append (left right : option error) : option error :=
  match left, right with
  | None, _ => right
  | _, None => left
  | Some l, Some r => Some (multiError (multierr_members l ++ multierr_members r))
  end.

(** The verb [%s] of [fmt] applied to an [error]: the text of the error,
    and a diagnostic for the [nil] interface value. *)
Definition fmt_s (e : option error) : string :=
  match e with
  | Some e => Error e
  | None => "%!s(<nil>)"
  end.

(** *** Dynamic values *)

(** The values an [interface{}] holds after decoding a document or
    evaluating a query. *)
Inductive value : Type :=
  | VNil
  | VBool (b : bool)
  | VNumber (repr : string)
  | VString (s : string)
  | VArray (elems : list value)
  | VObject (fields : list (string * value)).

(** *** strings, path/filepath *)

Definition ascii_eqb (a b : ascii) : bool := bool_decide (a = b).

(** [strings.HasPrefix] *)
Fixpoint strings_HasPrefix (s pre : string) {struct pre} : bool :=
  match pre with
  | EmptyString => true
  | String c pre' =>
      match s with
      | EmptyString => false
      | String d s' => ascii_eqb d c && strings_HasPrefix s' pre'
      end
  end.

(** [strings.HasSuffix]: the last [len(suffix)] bytes of [s] are
    [suffix]. *)
Definition strings_HasSuffix (s suffix : string) : bool :=
  (String.length suffix <=? String.length s)%nat &&
  bool_decide
    (substring (String.length s - String.length suffix)
               (String.length suffix) s = suffix).

(** [strings.Contains] *)
Fixpoint strings_Contains (s sub : string) : bool :=
  strings_HasPrefix s sub ||
  match s with
  | EmptyString => false
  | String _ s' => strings_Contains s' sub
  end.

(** [filepath.Ext]: scan backwards from the end of [path]; stop at a
    path separator; at the first dot return the text from that dot on.
    [rest] holds [path[:i+1]] reversed and [tail] holds [path[i+1:]]. *)
Fixpoint Ext_scan (rest : list ascii) (tail : list ascii) : list ascii :=
  match rest with
  | [] => []
  | c :: rest' =>
      if ascii_eqb c "/" then []
      else if ascii_eqb c "." then c :: tail
      else Ext_scan rest' (c :: tail)
  end.

Definition filepath_Ext (path : string) : string :=
  string_of_list_ascii (Ext_scan (rev (list_ascii_of_string path)) []).

(** *** bytes *)

Section Bytes.
Context {A : Type} `{EqDecision A}.

Fixpoint bytes_HasPrefix (s pre : list A) {struct pre} : bool :=
  match pre with
  | [] => true
  | c :: pre' =>
      match s with
      | [] => false
      | d :: s' => bool_decide (d = c) && bytes_HasPrefix s' pre'
      end
  end.

(** [bytes.Index]: the position of the first occurrence of [sep] in
    [s]; [None] stands for -1. *)
Fixpoint bytes_Index (s sep : list A) : option nat :=
  if bytes_HasPrefix s sep then Some 0
  else match s with
       | [] => None
       | _ :: s' => S <$> bytes_Index s' sep
       end.

(** [bytes.Count] for a separator of two bytes or more: the loop
    [for { i := Index(s, sep); if i == -1 { return n }; n++;
    s = s[i+len(sep):] }]. Every turn shortens [s], so [length s]
    turns are enough. *)
Fixpoint Count_loop (fuel : nat) (s sep : list A) (n : nat) : nat :=
  match fuel with
  | 0 => n
  | S fuel' =>
      match bytes_Index s sep with
      | None => n
      | Some i => Count_loop fuel' (drop (i + length sep) s) sep (S n)
      end
  end.

Definition bytes_Count (s sep : list A) : nat :=
  Count_loop (length s) s sep 0.

(** [bytes.Split(s, sep)] is [genSplit(s, sep, 0, -1)]: with
    [n = Count(s, sep) + 1], the loop cuts at the first occurrence of
    [sep] at most [n - 1] times and the rest of [s] is the last
    element. *)
Fixpoint genSplit_loop (n : nat) (s sep : list A) : list (list A) :=
  match n with
  | 0 => [s]
  | S n' =>
      match bytes_Index s sep with
      | None => [s]
      | Some m => take m s :: genSplit_loop n' (drop (m + length sep) s) sep
      end
  end.

Definition bytes_Split (s sep : list A) : list (list A) :=
  genSplit_loop (bytes_Count s sep) s sep.


(** [sep] occurs in [s]. *)
Definition occurs_in (sep s : list A) : Prop :=
  ∃ pre post, s = (pre ++ sep ++ post)%list.
End Bytes.

#[global] Instance byte_eq_decision : EqDecision byte := byte_eq_dec.

(** *** regexp *)

(** The fragment of the regular expressions of package [regexp] that the
    patterns of the checker use: literals, character classes given by
    ranges, concatenation, [?] and [*]. [RAlt], [REmpty] and [RFail]
    are needed for derivatives. A string is matched byte by byte; for
    patterns made of ASCII characters this agrees with matching by
    UTF-8 code point. *)
Inductive regex : Type :=
  | RFail
  | REmpty
  | RLit (c : ascii)
  | RClass (ranges : list (ascii * ascii))
  | RCat (r1 r2 : regex)
  | RAlt (r1 r2 : regex)
  | RQuest (r : regex)
  | RStar (r : regex).

Definition in_range (c : ascii) (rg : ascii * ascii) : bool :=
  (nat_of_ascii (fst rg) <=? nat_of_ascii c)%nat
  && (nat_of_ascii c <=? nat_of_ascii (snd rg))%nat.

Definition in_class (c : ascii) (ranges : list (ascii * ascii)) : bool :=
  existsb (in_range c) ranges.

(** The expression matches the empty string. *)
Fixpoint nullable (r : regex) : bool :=
  match r with
  | RFail => false
  | REmpty => true
  | RLit _ => false
  | RClass _ => false
  | RCat r1 r2 => nullable r1 && nullable r2
  | RAlt r1 r2 => nullable r1 || nullable r2
  | RQuest _ => true
  | RStar _ => true
  end.

(** What is left of the expression after reading [c]. *)
Fixpoint deriv (c : ascii) (r : regex) : regex :=
  match r with
  | RFail => RFail
  | REmpty => RFail
  | RLit a => if ascii_eqb c a then REmpty else RFail
  | RClass ranges => if in_class c ranges then REmpty else RFail
  | RCat r1 r2 =>
      if nullable r1 then RAlt (RCat (deriv c r1) r2) (deriv c r2)
      else RCat (deriv c r1) r2
  | RAlt r1 r2 => RAlt (deriv c r1) (deriv c r2)
  | RQuest r1 => deriv c r1
  | RStar r1 => RCat (deriv c r1) (RStar r1)
  end.

(** The strings an expression denotes. *)
Inductive matches : regex → string → Prop :=
  | matches_empty : matches REmpty ""
  | matches_lit c : matches (RLit c) (String c "")
  | matches_class c ranges :
      in_class c ranges = true → matches (RClass ranges) (String c "")
  | matches_cat r1 r2 w1 w2 :
      matches r1 w1 → matches r2 w2 → matches (RCat r1 r2) (w1 +:+ w2)
  | matches_alt_l r1 r2 w : matches r1 w → matches (RAlt r1 r2) w
  | matches_alt_r r1 r2 w : matches r2 w → matches (RAlt r1 r2) w
  | matches_quest_none r : matches (RQuest r) ""
  | matches_quest_some r w : matches r w → matches (RQuest r) w
  | matches_star_nil r : matches (RStar r) ""
  | matches_star_cons r w1 w2 :
      matches r w1 → matches (RStar r) w2 → matches (RStar r) (w1 +:+ w2).

(** Some prefix of [s] is matched by [r]. *)
Fixpoint match_at (r : regex) (s : string) : bool :=
  nullable r ||
  match s with
  | EmptyString => false
  | String c s' => match_at (deriv c r) s'
  end.

(** [MatchString] of a compiled expression: the string contains a match of the
    expression, starting anywhere. *)
Fixpoint MatchString (r : regex) (s : string) : bool :=
  match_at r s ||
  match s with
  | EmptyString => false
  | String _ s' => MatchString r s'
  end.

End Go.

Export Go.

(** ** Package parsers *)

Module parsers.

(** [type Parser = func([]byte, interface{}) error]: the decoded value
    is stored through the pointer argument, here it is returned. *)
Definition Parser : Type := list byte → result value.

Section Parsers.
(** [yaml.Unmarshal] of github.com/ghodss/yaml. *)
Variable yaml_Unmarshal : list byte → result value.

Definition parseYAML : Parser := fun bs =>
  match yaml_Unmarshal bs with
  | Err err => Err (errors_New ("unable to parse yaml: " +:+ Error err))
  | Ok v => Ok v
  end.

Definition Get (fileName : string) : result Parser :=
  let suffix := filepath_Ext fileName in
  if bool_decide (suffix = ".yaml") || bool_decide (suffix = ".yml")
     || bool_decide (suffix = ".json")
  then Ok parseYAML
  else Err (errors_New ("unable to find Parser for file: " +:+ fileName)).
End Parsers.

End parsers.

(** ** The policy engine (github.com/open-policy-agent/opa) *)

Module ast.
Record RuleHead : Type := { Name : string }.
Record Rule : Type := { Head : RuleHead }.
Record Module : Type := { Rules : list Rule }.

(** [ast.Compiler]: the modules by file name, and the diagnostics of
    the compilation seen as one error ([None] when there are none). *)
Record Compiler : Type := {
  Modules : gmap string Module;
  Errors : option error
}.

Definition Failed (a : Compiler) : bool :=
  match Errors a with Some _ => true | None => false end.

Definition rule (name : string) : Rule := {| Head := {| Name := name |} |}.
End ast.

Module rego.
(** [rego.New(rego.Query(q), rego.Compiler(c), rego.Input(in))] *)
Record Rego : Type := {
  Query : string;
  Compiler : option ast.Compiler;
  Input : value
}.

Record PreparedEvalQuery : Type := { prepared : Rego }.

Record ExpressionValue : Type := { Value : value; Text : string }.
Record Result : Type := { Expressions : list ExpressionValue }.
Definition ResultSet : Type := list Result.
End rego.

Module os.
Record FileInfo : Type := { Name : string; IsDir : bool }.
End os.

(** ** What lies outside the repository *)

Record Env : Type := {
  os_Stat : string → result os.FileInfo;
  ioutil_ReadDir : string → result (list os.FileInfo);
  ioutil_ReadFile : string → result (list byte);
  filepath_Abs : string → result string;
  filepath_Dir : string → string;
  ast_ParseModule : string → string → result ast.Module;
  ast_Compile : gmap string ast.Module → ast.Compiler;
  rego_PrepareForEval : rego.Rego → result rego.PreparedEvalQuery;
  rego_Eval : rego.PreparedEvalQuery → result rego.ResultSet;
  yaml_Unmarshal : list byte → result value
}.

(** ** Effects: the trace of dispatched queries, and panics *)

(** One entry per call of [runQuery]: the query text and the bound
    input. *)
Inductive event : Type :=
  | EvQuery (query : string) (input : value).

Inductive outcome (A : Type) : Type :=
  | Done (a : A)
  | Panicked.
Arguments Done {A} a.
Arguments Panicked {A}.

(** A computation: the events it emitted, and how it ended. *)
Record M (A : Type) : Type := mkM { trace : list event; out : outcome A }.
Arguments mkM {A} trace out.
Arguments trace {A} m.
Arguments out {A} m.

#[global] Instance M_ret : MRet M := λ A a, mkM [] (Done a).
#[global] Instance M_bind : MBind M := λ A B f m,
  match out m with
  | Done a => mkM (trace m ++ trace (f a)) (out (f a))
  | Panicked => mkM (trace m) Panicked
  end.

Definition emit (e : event) : M unit := mkM [e] (Done tt).
Definition panic {A : Type} : M A := mkM [] Panicked.
Definition lift {A : Type} (o : outcome A) : M A := mkM [] o.

(** ** Package pkg *)

Module pkg.

(** The patterns [deny_?[a-zA-Z]*] and [warn_?[a-zA-Z]*]. *)
Definition name_tail : regex :=
  RCat (RQuest (RLit "_")) (RStar (RClass [("a", "z"); ("A", "Z")]%char)).

Definition failQ : regex :=
  RCat (RLit "d") (RCat (RLit "e") (RCat (RLit "n") (RCat (RLit "y") name_tail))).

Definition warnQ : regex :=
  RCat (RLit "w") (RCat (RLit "a") (RCat (RLit "r") (RCat (RLit "n") name_tail))).

Record ConfChecker : Type := {
  namespace : string;
  policyDir : string;
  configs : list string
}.

Definition NewConfChecker (namespace policyDir : string) (configs : list string)
  : ConfChecker :=
  {| namespace := namespace; policyDir := policyDir; configs := configs |}.

(** The results of a check for a single file; a [nil] entry of a
    [[]error] is [None]. *)
Record CheckResult : Type := {
  Failures : list (option error);
  Warnings : list (option error)
}.

(** File name to its results. *)
Abbreviation CheckResults := (gmap string CheckResult).

(** [Compiler] embeds a pointer to an [ast.Compiler], [nil] until
    [Build] has succeeded. *)
Record Compiler : Type := {
  Compiler_ : option ast.Compiler;
  Compiler_policyDir : string
}.

Definition NewCompiler (policyDir : string) : Compiler :=
  {| Compiler_ := None; Compiler_policyDir := policyDir |}.

(** The order in which each [range] over a map visits its entries:
    over [compiler.Modules] while processing a given file, over the
    loaded configs in [Run], over the results in [confCheck]. *)
Record schedule : Type := {
  order_Modules : string → gmap string ast.Module → list (string * ast.Module);
  order_configs :
    gmap string (list (list byte)) → list (string * list (list byte));
  order_results : CheckResults → list (string * CheckResult)
}.

(** A schedule visits every entry of the map exactly once. *)
Definition visits_all (sched : schedule) : Prop :=
  (∀ f m, order_Modules sched f m ≡ₚ map_to_list m) ∧
  (∀ m, order_configs sched m ≡ₚ map_to_list m) ∧
  (∀ m, order_results sched m ≡ₚ map_to_list m).

(** The schedule that visits every map in the order of [map_to_list]. *)
Definition listed : schedule :=
  {| order_Modules := λ _ m, map_to_list m;
     order_configs := λ m, map_to_list m;
     order_results := λ m, map_to_list m |}.

(** The multi-document separator of [loadConfigs]: newline, three
    dashes, newline. *)
Definition separator : list byte := [x0a; x2d; x2d; x2d; x0a].

(** The rule names of one module, then of all modules in visiting
    order, filed under the queries they match (lines 115 to 128 of
    [processFile]); the pair is [(fQueries, wQueries)]. *)
Definition classify_rule (qs : list string * list string) (r : ast.Rule)
  : list string * list string :=
  let n := ast.Name (ast.Head r) in
  let wQueries := if MatchString warnQ n then qs.2 ++ [n] else qs.2 in
  let fQueries := if MatchString failQ n then qs.1 ++ [n] else qs.1 in
  (fQueries, wQueries).

Definition classify_module (qs : list string * list string) (m : ast.Module)
  : list string * list string :=
  foldl classify_rule qs (ast.Rules m).

Definition classify (mods : list ast.Module) : list string * list string :=
  foldl classify_module ([], []) mods.

Definition hasResults (expression : value) : bool :=
  match expression with
  | VArray v => (0 <? length v)%nat
  | _ => false
  end.

(** [Query.Build]: never fails. *)
Definition Query_Build (q : string) (compiler : option ast.Compiler)
    (input : value) : result rego.Rego :=
  Ok {| rego.Query := q; rego.Compiler := compiler; rego.Input := input |}.

(** The innermost loop of [runQuery]: every element is asserted to be a
    string, and the assertion panics when it is not. *)
Fixpoint append_values (vs : list value) (err : option error)
  : outcome (option error) :=
  match vs with
  | [] => Done err
  | VString s :: vs' =>
      append_values vs' (multierr_Append err (Some (errors_New s)))
  | _ :: _ => Panicked
  end.

Fixpoint append_expressions (es : list rego.ExpressionValue)
    (err : option error) : outcome (option error) :=
  match es with
  | [] => Done err
  | e :: es' =>
      let value := rego.Value e in
      if hasResults value then
        match value with
        | VArray vs =>
            match append_values vs err with
            | Done err' => append_expressions es' err'
            | Panicked => Panicked
            end
        | _ => Panicked
        end
      else append_expressions es' err
  end.

Fixpoint append_results (rr : rego.ResultSet) (err : option error)
  : outcome (option error) :=
  match rr with
  | [] => Done err
  | r :: rr' =>
      match append_expressions (rego.Expressions r) err with
      | Done err' => append_results rr' err'
      | Panicked => Panicked
      end
  end.

Section Checker.
Context (env : Env).

Definition runQuery (query : string) (input : value)
    (compiler : option ast.Compiler) : M (option error) :=
  _ ← emit (EvQuery query input);
  match Query_Build query compiler input with
  | Err err =>
      mret (Some (errors_New ("error constructing query : " +:+ Error err)))
  | Ok rq =>
      match rego_PrepareForEval env rq with
      | Err err =>
          mret (Some (errors_New
                        ("error preparing for evaluation: " +:+ Error err)))
      | Ok pq =>
          match rego_Eval env pq with
          | Err err =>
              mret (Some (errors_New
                            ("error evaluating rules: " +:+ Error err)))
          | Ok rr => lift (append_results rr None)
          end
      end
  end.

(** [for _, q := range queries { e := runQuery(...); acc = append(acc, e) }] *)
Fixpoint run_queries (namespace : string) (queries : list string)
    (input : value) (compiler : option ast.Compiler)
    (acc : list (option error)) : M (list (option error)) :=
  match queries with
  | [] => mret acc
  | q :: queries' =>
      e ← runQuery ("data." +:+ namespace +:+ "." +:+ q) input compiler;
      run_queries namespace queries' input compiler (acc ++ [e])
  end.

(** The loop over the parts of a file (lines 130 to 151). *)
Fixpoint process_parts (p : parsers.Parser) (namespace : string)
    (fQueries wQueries : list string) (compiler : option ast.Compiler)
    (parts : list (list byte)) (fails warns : list (option error))
  : M (list (option error) * list (option error) * option error) :=
  match parts with
  | [] => mret (fails, warns, None)
  | part :: parts' =>
      match p part with
      | Err err => mret ([], [], Some err)
      | Ok input =>
          fails' ← run_queries namespace fQueries input compiler fails;
          warns' ← run_queries namespace wQueries input compiler warns;
          process_parts p namespace fQueries wQueries compiler parts'
                        fails' warns'
      end
  end.

Definition processFile (sched : schedule) (namespace fileName : string)
    (parts : list (list byte)) (compiler : option ast.Compiler)
  : M (list (option error) * list (option error) * option error) :=
  match parsers.Get (yaml_Unmarshal env) fileName with
  | Err err => mret ([], [], Some err)
  | Ok p =>
      match compiler with
      | None => panic
      | Some a =>
          let qs :=
            classify (order_Modules sched fileName (ast.Modules a)).*2 in
          process_parts p namespace qs.1 qs.2 compiler parts [] []
      end
  end.

(** [loadConfigs]: the loop over the file names, [res] being the map
    built so far. *)
Fixpoint loadConfigs_loop (files : list string)
    (res : gmap string (list (list byte)))
  : result (gmap string (list (list byte))) :=
  match files with
  | [] => Ok res
  | f :: files' =>
      match filepath_Abs env f with
      | Err err => Err err
      | Ok filePath =>
          match ioutil_ReadFile env filePath with
          | Err err =>
              Err (errors_New ("unable to open file " +:+ f +:+ ": "
                               +:+ Error err))
          | Ok data =>
              let parts := bytes_Split data separator in
              loadConfigs_loop files' (<[filePath := parts]> res)
          end
      end
  end.

Definition loadConfigs (files : list string)
  : result (gmap string (list (list byte))) :=
  loadConfigs_loop files ∅.

(** [readPolicies]: the loop over the candidate files. *)
Fixpoint readPolicies_loop (dirPath : string) (files : list os.FileInfo)
    (ms : gmap string ast.Module) : result (gmap string ast.Module) :=
  match files with
  | [] => Ok ms
  | file :: files' =>
      if negb (strings_HasSuffix (os.Name file) ".rego") then
        readPolicies_loop dirPath files' ms
      else
        match ioutil_ReadFile env (dirPath +:+ "/" +:+ os.Name file) with
        | Err err => Err err
        | Ok out =>
            match ast_ParseModule env (os.Name file)
                                  (string_of_list_byte out) with
            | Err err => Err err
            | Ok parsed =>
                readPolicies_loop dirPath files'
                                  (<[os.Name file := parsed]> ms)
            end
        end
  end.

Definition readPolicies (pPath : string) : result (gmap string ast.Module) :=
  match os_Stat env pPath with
  | Err err =>
      Err (errors_New ("error loading policies from " +:+ pPath +:+ ": "
                       +:+ Error err))
  | Ok info =>
      if os.IsDir info then
        match ioutil_ReadDir env pPath with
        | Err err =>
            Err (errors_New ("error loading policies from " +:+ pPath
                             +:+ ": " +:+ Error err))
        | Ok files => readPolicies_loop pPath files ∅
        end
      else readPolicies_loop (filepath_Dir env pPath) [info] ∅
  end.

(** [Build]: the receiver after the call, and the returned error. *)
Definition Build (c : Compiler) : Compiler * option error :=
  match readPolicies (Compiler_policyDir c) with
  | Err err => (c, Some err)
  | Ok ps =>
      let a := ast_Compile env ps in
      if ast.Failed a then (c, ast.Errors a)
      else ({| Compiler_ := Some a;
               Compiler_policyDir := Compiler_policyDir c |}, None)
  end.

(** The loop of [Run] over the loaded files, in visiting order. *)
Fixpoint Run_loop (sched : schedule) (c : ConfChecker)
    (compiler : option ast.Compiler)
    (cfs : list (string * list (list byte))) (res : CheckResults)
  : M (CheckResults * option error) :=
  match cfs with
  | [] => mret (res, None)
  | (name, parts) :: cfs' =>
      r ← processFile sched (namespace c) name parts compiler;
      match r with
      | (_, _, Some err) =>
          mret (∅, Some (errors_New ("error processiong file: "
                                      +:+ Error err)))
      | (fs, ws, None) =>
          Run_loop sched c compiler cfs'
                   (<[name := {| Failures := fs; Warnings := ws |}]> res)
      end
  end.

Definition Run (sched : schedule) (c : ConfChecker)
  : M (CheckResults * option error) :=
  let (compiler, err) := Build (NewCompiler (policyDir c)) in
  match err with
  | Some err =>
      mret (∅, Some (errors_New ("error loading rules: " +:+ Error err)))
  | None =>
      match loadConfigs (configs c) with
      | Err err =>
          mret (∅, Some (errors_New ("error loading configs: "
                                      +:+ Error err)))
      | Ok cfs =>
          Run_loop sched c (Compiler_ compiler) (order_configs sched cfs) ∅
      end
  end.
End Checker.

End pkg.

(** ** The command (package main) *)

Module main.

(** All command line arguments. *)
Record args : Type := {
  policyDir : string;
  namespace : string;
  strict : bool;
  configs : list string
}.

(** What the process writes: the three colours of [printer], and the
    lines of package [log]. *)
Inductive line : Type :=
  | Red (s : string)
  | Yellow (s : string)
  | Green (s : string)
  | Logged (s : string).

Definition printer_err (file : string) (err : option error) : line :=
  Red ("Failure: " +:+ file +:+ " - " +:+ fmt_s err).

Definition printer_warning (file : string) (err : option error) : line :=
  Yellow ("Warning: " +:+ file +:+ " - " +:+ fmt_s err).

Definition printer_ok (file : string) : line :=
  Green ("Passed: " +:+ file).

(** [for _, w := range res.Warnings { ... }] *)
Definition print_warnings (strict : bool) (f : string)
    (ws : list (option error)) : list line :=
  map (λ w, if strict then printer_err f w else printer_warning f w) ws.

(** [for _, fa := range res.Failures { err = fa; p.err(f, fa) }]: the
    lines printed, and the value of [err] after the loop. *)
Fixpoint print_failures (f : string) (fas : list (option error))
    (err : option error) : list line * option error :=
  match fas with
  | [] => ([], err)
  | fa :: fas' =>
      let (ls, err') := print_failures f fas' fa in
      (printer_err f fa :: ls, err')
  end.

(** The loop of [confCheck] over the results, in visiting order. *)
Fixpoint report (strict : bool) (cr : list (string * pkg.CheckResult))
    (err : option error) : list line * option error :=
  match cr with
  | [] => ([], err)
  | (f, res) :: cr' =>
      let passed :=
        if bool_decide (length (pkg.Warnings res) = 0)
           && bool_decide (length (pkg.Failures res) = 0)
        then [printer_ok f] else [] in
      let warned := print_warnings strict f (pkg.Warnings res) in
      let (failed, err1) := print_failures f (pkg.Failures res) err in
      let (ls, err2) := report strict cr' err1 in
      (passed ++ warned ++ failed ++ ls, err2)
  end.

Section Command.
Context (env : Env) (sched : pkg.schedule).

Definition confCheck (a : args) : M (list line * option error) :=
  let cc := pkg.NewConfChecker (namespace a) (policyDir a) (configs a) in
  r ← pkg.Run env sched cc;
  match r with
  | (_, Some err) =>
      mret ([Logged ("error running checker: " +:+ " " +:+ Error err)],
            Some err)
  | (cr, None) =>
      let (ls, _) := report (strict a) (pkg.order_results sched cr) None in
      mret (ls, None)
  end.

(** The action of the application and the end of [main]: [log.Fatal]
    exits with status 1, a panic that is not recovered exits with
    status 2, and returning from [main] exits with status 0. *)
Definition main (a : args) : list line * Z :=
  let m := confCheck a in
  match out m with
  | Panicked => ([], 2%Z)
  | Done (ls, Some err) => (ls ++ [Logged ("error: " +:+ Error err)], 1%Z)
  | Done (ls, None) => (ls, 0%Z)
  end.
End Command.

End main.

(** ** A small world to run the checker in *)

Module Fixture.

(** Everything before the last slash of a path. *)
Fixpoint dir_scan (rest : list ascii) : list ascii :=
  match rest with
  | [] => []
  | c :: rest' => if ascii_eqb c "/" then rest' else dir_scan rest'
  end.

Definition dir_of (path : string) : string :=
  string_of_list_ascii (rev (dir_scan (rev (list_ascii_of_string path)))).

Fixpoint assoc {A : Type} (k : string) (l : list (string * A)) : option A :=
  match l with
  | [] => None
  | (k', a) :: l' => if bool_decide (k' = k) then Some a else assoc k l'
  end.

Definition no_such_file (path : string) : error :=
  errors_New ("open " +:+ path +:+ ": no such file or directory").

Definition no_such_path (path : string) : error :=
  errors_New ("stat " +:+ path +:+ ": no such file or directory").

(** A decoder that rejects the one-byte document [{] and reads any
    other document as a plain scalar. *)
Definition decode_error : error :=
  errors_New ("error converting YAML to JSON: "
              +:+ "yaml: did not find expected node content").

Definition decode (bs : list byte) : result value :=
  if bool_decide (bs = [x7b]) then Err decode_error
  else Ok (VString (string_of_list_byte bs)).

(** A world with a directory [policies] holding the modules [policies]
    (file name, rule names), one more policy file [extra] next to the
    directory, the config files [files] (absolute path, contents), and an
    engine that answers every query through [engine]. *)
Definition world (policies : list (string * list string))
    (extra : list (string * list string))
    (files : list (string * list byte))
    (engine : string → value → result rego.ResultSet) : Env :=
  {| os_Stat := λ p,
       if bool_decide (p = "policies") then
         Ok {| os.Name := "policies"; os.IsDir := true |}
       else match assoc p extra with
            | Some _ => Ok {| os.Name := p; os.IsDir := false |}
            | None => Err (no_such_path p)
            end;
     ioutil_ReadDir := λ p,
       if bool_decide (p = "policies") then
         Ok (map (λ e, {| os.Name := e.1; os.IsDir := false |}) policies)
       else Err (no_such_file p);
     ioutil_ReadFile := λ p,
       match assoc p files with
       | Some data => Ok data
       | None =>
           if bool_decide (dir_of p = "policies") || bool_decide (dir_of p = ".")
           then Ok [] else Err (no_such_file p)
       end;
     filepath_Abs := λ p, Ok p;
     filepath_Dir := λ p,
       if bool_decide (dir_of p = "") then "." else dir_of p;
     ast_ParseModule := λ name _,
       match assoc name (policies ++ extra) with
       | Some rules => Ok {| ast.Rules := map ast.rule rules |}
       | None => Err (errors_New ("cannot parse " +:+ name))
       end;
     ast_Compile := λ ps, {| ast.Modules := ps; ast.Errors := None |};
     rego_PrepareForEval := λ rq, Ok {| rego.prepared := rq |};
     rego_Eval := λ pq,
       engine (rego.Query (rego.prepared pq)) (rego.Input (rego.prepared pq));
     yaml_Unmarshal := decode |}.

(** Engines: one that finds no violation, one whose [deny] rules report
    [msg], one whose rules produce a number instead of a string. *)
Definition quiet : string → value → result rego.ResultSet :=
  λ _ _, Ok [].

Definition answer (v : value) : rego.ResultSet :=
  [ {| rego.Expressions := [ {| rego.Value := v; rego.Text := "" |} ] |} ].

Definition denying (msg : string) : string → value → result rego.ResultSet :=
  λ q _, if strings_Contains q "deny" then Ok (answer (VArray [VString msg]))
         else Ok (answer (VArray [])).

Definition warning (msg : string) : string → value → result rego.ResultSet :=
  λ q _, if strings_Contains q "warn" then Ok (answer (VArray [VString msg]))
         else Ok (answer (VArray [])).

Definition ill_typed : string → value → result rego.ResultSet :=
  λ _ _, Ok (answer (VArray [VNumber "42"])).

(** An engine whose every rule reports the text of the query. *)
Definition echo : string → value → result rego.ResultSet :=
  λ q _, Ok (answer (VArray [VString q])).

(** The example of the README: the policy with the rules [is_hpa],
    [deny_no_hpa] and [warn_no_default_namespace], as an engine over
    documents read as text, and a manifest of two documents, a Deployment
    and a HorizontalPodAutoscaler in the namespace [default]. *)
Definition readme_name (doc : string) : string :=
  if strings_Contains doc "name: nginx-deployment" then "nginx-deployment"
  else "nginx".

Definition readme_policy : string → value → result rego.ResultSet :=
  λ q input,
    match input with
    | VString doc =>
        if strings_Contains q "deny_no_hpa" then
          if strings_Contains doc "kind: HorizontalPodAutoscaler"
          then Ok (answer (VArray []))
          else Ok (answer (VArray [VString
                 (readme_name doc
                  +:+ " must not include any Horizontal Pod AutoScalers")]))
        else if strings_Contains q "warn_no_default_namespace" then
          if strings_Contains doc "namespace: default"
          then Ok (answer (VArray []))
          else Ok (answer (VArray [VString
                 (readme_name doc
                  +:+ " should not be configured to live in the default namespace")]))
        else Ok []
    | _ => Ok []
    end.

Definition nl : string := String (ascii_of_nat 10) EmptyString.

Definition readme_manifest : string :=
  "kind: Deployment" +:+ nl +:+ "metadata:" +:+ nl
  +:+ "  name: nginx-deployment" +:+ nl +:+ nl +:+ "---" +:+ nl +:+ nl
  +:+ "kind: HorizontalPodAutoscaler" +:+ nl +:+ "metadata:" +:+ nl
  +:+ "  name: nginx" +:+ nl +:+ "  namespace: default".

(** The schedule that visits every map in the opposite order of
    [pkg.listed]. *)
Definition reversed : pkg.schedule :=
  {| pkg.order_Modules := λ _ m, reverse (map_to_list m);
     pkg.order_configs := λ m, reverse (map_to_list m);
     pkg.order_results := λ m, reverse (map_to_list m) |}.

(** The schedule that visits the loaded files in the opposite order of
    [pkg.listed] and everything else in the same order. *)
Definition files_reversed : pkg.schedule :=
  {| pkg.order_Modules := λ _ m, map_to_list m;
     pkg.order_configs := λ m, reverse (map_to_list m);
     pkg.order_results := λ m, map_to_list m |}.

(** An engine whose every rule reports the two messages [a] and [b]. *)
Definition twice : string → value → result rego.ResultSet :=
  λ _ _, Ok (answer (VArray [VString "a"; VString "b"])).

(** A module given by the names of its rules. *)
Definition module (names : list string) : ast.Module :=
  {| ast.Rules := map ast.rule names |}.

(** The bytes of a text. *)
Definition bytes (s : string) : list byte := list_byte_of_string s.

Definition checker (files : list string) : pkg.ConfChecker :=
  pkg.NewConfChecker "main" "policies" files.

Definition arguments (strict : bool) (files : list string) : main.args :=
  {| main.policyDir := "policies"; main.namespace := "main";
     main.strict := strict; main.configs := files |}.

End Fixture.

(** ** Vocabulary of the statements *)

(** The extensions with a decoder. *)
Definition supported : list string := [".yaml"; ".yml"; ".json"].


(** The names of the rules of a module, in source order. *)
Definition rule_names (m : ast.Module) : list string :=
  map (λ r, ast.Name (ast.Head r)) (ast.Rules m).

(** The names of a module that a pattern selects. *)
Definition selected (q : regex) (m : ast.Module) : list string :=
  filter (λ n, MatchString q n) (rule_names m).

(** The calls dispatched for one decoded part: the denial queries, then
    the warning queries. *)
Definition queries_for (namespace : string) (fQueries wQueries : list string)
    (input : value) : list event :=
  map (λ q, EvQuery ("data." +:+ namespace +:+ "." +:+ q) input)
      (fQueries ++ wQueries).

(** The elements of the list values of a result set, in the order in
    which [runQuery] reads them. *)
Definition bindings (rr : rego.ResultSet) : list value :=
  rr ≫= λ r, rego.Expressions r ≫= λ e,
    match rego.Value e with
    | VArray vs => vs
    | _ => []
    end.

Definition as_string (v : value) : option string :=
  match v with
  | VString s => Some s
  | _ => None
  end.

(** The messages of a result set. *)
Definition messages (rr : rego.ResultSet) : list string :=
  omap as_string (bindings rr).

(** The one error that stands for a list of messages: [nil] for none,
    the message itself for one, a flat [multiError] for more. *)
Definition errors_of (msgs : list string) : option error :=
  match msgs with
  | [] => None
  | [m] => Some (errorString m)
  | _ => Some (multiError (map errorString msgs))
  end.

(** [runQuery] returned [e] for the query named [iq.2] on the input
    [iq.1]. *)
Definition returned (env : Env) (ns : string) (compiler : option ast.Compiler)
    (e : option error) (iq : value * string) : Prop :=
  out (pkg.runQuery env ("data." +:+ ns +:+ "." +:+ iq.2) iq.1 compiler)
  = Done e.

(** The entry [Run] records for a file whose processing completes. *)
Definition file_result (env : Env) (sched : pkg.schedule) (ns : string)
    (compiler : option ast.Compiler) (name : string)
    (parts : list (list byte)) : option pkg.CheckResult :=
  match out (pkg.processFile env sched ns name parts compiler) with
  | Done (fs, ws, None) => Some {| pkg.Failures := fs; pkg.Warnings := ws |}
  | _ => None
  end.

(** The number of document parts of all loaded files together. *)
Definition total_parts (cfs : gmap string (list (list byte))) : nat :=
  sum_list_with (λ f, length f.2) (map_to_list cfs).

(** A config file name that resolves to an absolute path that can be
    read. *)
Definition readable (env : Env) (f : string) : Prop :=
  ∃ p data, filepath_Abs env f = Ok p ∧ ioutil_ReadFile env p = Ok data.

(** Reading and parsing the policy file [name] of the directory
    [dirPath], as the loop of [readPolicies] does. *)
Definition module_of (env : Env) (dirPath name : string) : result ast.Module :=
  match ioutil_ReadFile env (dirPath +:+ "/" +:+ name) with
  | Err err => Err err
  | Ok out => ast_ParseModule env name (string_of_list_byte out)
  end.

(** The candidate files of a policy path and the directory they are read
    from: the entries of a directory, or the file itself. *)
Definition candidates (env : Env) (pPath : string)
    (dirPath : string) (files : list os.FileInfo) : Prop :=
  ∃ info, os_Stat env pPath = Ok info
          ∧ if os.IsDir info
            then ioutil_ReadDir env pPath = Ok files ∧ dirPath = pPath
            else files = [info] ∧ dirPath = filepath_Dir env pPath.

(** An engine whose list values hold strings only. *)
Definition well_typed (env : Env) : Prop :=
  ∀ pq rr, rego_Eval env pq = Ok rr →
           Forall (λ v, is_Some (as_string v)) (bindings rr).

(** The text of a line about the entry [e] of the file [f]. *)
Definition failure_text (f : string) (e : option error) : string :=
  "Failure: " +:+ f +:+ " - " +:+ fmt_s e.

Definition warning_text (f : string) (e : option error) : string :=
  "Warning: " +:+ f +:+ " - " +:+ fmt_s e.

(** The lines to expect for one file: one green line for a file without
    entries; otherwise one line per warning (yellow, or red and worded as
    a failure in strict mode), then one red line per failure. *)
Definition lines_of (strict : bool) (fr : string * pkg.CheckResult)
  : list main.line :=
  match pkg.Warnings fr.2, pkg.Failures fr.2 with
  | [], [] => [main.Green ("Passed: " +:+ fr.1)]
  | ws, fs =>
      map (λ w, if strict then main.Red (failure_text fr.1 w)
                else main.Yellow (warning_text fr.1 w)) ws
      ++ map (λ fa, main.Red (failure_text fr.1 fa)) fs
  end.

Definition is_yellow (l : main.line) : bool :=
  match l with
  | main.Yellow _ => true
  | _ => false
  end.

(** * Properties *)

(** ** Decoder selection *)

Lemma string_of_list_ascii_app (a b : list ascii) :
  string_of_list_ascii (a ++ b)
  = string_of_list_ascii a +:+ string_of_list_ascii b.
Proof.
  induction a as [|c a IH]; simpl; [reflexivity|]. by rewrite IH.
Qed.

Lemma Ext_scan_suffix (rest tail : list ascii) :
  ∃ pre, rev rest ++ tail = pre ++ Ext_scan rest tail.
Proof.
  revert tail. induction rest as [|c rest IH]; intros tail; simpl.
  - exists tail. by rewrite app_nil_r.
  - destruct (ascii_eqb c "/").
    + eexists. by rewrite app_nil_r.
    + destruct (ascii_eqb c ".").
      * exists (rev rest). by rewrite <- app_assoc.
      * destruct (IH (c :: tail)) as [pre Hpre].
        exists pre. by rewrite <- app_assoc.
Qed.

(** The extension is the end of the path. *)
Lemma filepath_Ext_suffix (path : string) :
  ∃ pre, path = pre +:+ filepath_Ext path.
Proof.
  unfold filepath_Ext.
  destruct (Ext_scan_suffix (rev (list_ascii_of_string path)) []) as [pre H].
  rewrite rev_involutive, app_nil_r in H.
  exists (string_of_list_ascii pre).
  rewrite <- string_of_list_ascii_app, <- H.
  by rewrite string_of_list_ascii_of_string.
Qed.

Section Decoder.
Context (env : Env).

Lemma Get_supported (fileName : string) :
  filepath_Ext fileName ∈ supported →
  parsers.Get (yaml_Unmarshal env) fileName
  = Ok (parsers.parseYAML (yaml_Unmarshal env)).
Proof.
  unfold supported, parsers.Get. intros H.
  rewrite !elem_of_cons, elem_of_nil in H.
  destruct H as [->|[->|[->|[]]]]; reflexivity.
Qed.

Lemma Get_unsupported (fileName : string) :
  filepath_Ext fileName ∉ supported →
  parsers.Get (yaml_Unmarshal env) fileName
  = Err (errors_New ("unable to find Parser for file: " +:+ fileName)).
Proof.
  unfold supported, parsers.Get. intros H.
  rewrite !not_elem_of_cons in H. destruct H as (H1 & H2 & H3 & _).
  by rewrite !bool_decide_eq_false_2.
Qed.

(** C9. A file whose extension is [.yaml], [.yml] or [.json] gets the one
    YAML decoder. For any other extension the selection fails with an
    error whose text ends with the file name, hence with the extension;
    the file is not skipped: [processFile] hands that error back without
    dispatching a query, and [Run] reports an error. *)
Theorem Get_by_extension (sched : pkg.schedule) (c : pkg.ConfChecker)
    (fileName : string) (parts : list (list byte))
    (compiler : option ast.Compiler)
    (rest : list (string * list (list byte))) (res : pkg.CheckResults) :
  (filepath_Ext fileName ∈ supported →
   parsers.Get (yaml_Unmarshal env) fileName
   = Ok (parsers.parseYAML (yaml_Unmarshal env)))
  ∧ (filepath_Ext fileName ∉ supported →
     ∃ err pre,
       parsers.Get (yaml_Unmarshal env) fileName = Err err
       ∧ Error err = "unable to find Parser for file: " +:+ fileName
       ∧ Error err = pre +:+ filepath_Ext fileName
       ∧ pkg.processFile env sched (pkg.namespace c) fileName parts compiler
         = mkM [] (Done ([], [], Some err))
       ∧ pkg.Run_loop env sched c compiler ((fileName, parts) :: rest) res
         = mkM [] (Done (∅, Some (errors_New
                     ("error processiong file: " +:+ Error err))))).
Proof.
  split; [apply Get_supported|].
  intros H. pose proof (Get_unsupported fileName H) as HG.
  destruct (filepath_Ext_suffix fileName) as [pre Hpre].
  eexists _, ("unable to find Parser for file: " +:+ pre).
  split; [exact HG|]. split; [reflexivity|].
  split; [|split].
  - simpl. rewrite Hpre at 1. reflexivity.
  - unfold pkg.processFile. by rewrite HG.
  - simpl. unfold pkg.processFile. by rewrite HG.
Qed.

End Decoder.

(** An instance: the files [/c/a.yml] and [/c/a.toml]. *)
Lemma Get_by_extension_witness :
  parsers.Get Fixture.decode "/c/a.yml" = Ok (parsers.parseYAML Fixture.decode)
  ∧ ∃ err, parsers.Get Fixture.decode "/c/a.toml" = Err err
           ∧ Error err = "unable to find Parser for file: /c/a.toml".
Proof.
  pose (env := Fixture.world [] [] [] Fixture.quiet).
  destruct (Get_by_extension env pkg.listed (Fixture.checker [])
              "/c/a.yml" [] None [] ∅) as [H _].
  destruct (Get_by_extension env pkg.listed (Fixture.checker [])
              "/c/a.toml" [] None [] ∅) as [_ H'].
  split.
  - apply H.
    replace (filepath_Ext "/c/a.yml") with ".yml" by (vm_compute; reflexivity).
    unfold supported. rewrite !elem_of_cons. auto.
  - destruct H' as (err & pre & HG & HE & _).
    + replace (filepath_Ext "/c/a.toml") with ".toml"
        by (vm_compute; reflexivity).
      unfold supported. rewrite !not_elem_of_cons.
      repeat split; [discriminate.. | apply not_elem_of_nil].
    + exists err. split; [exact HG | exact HE].
Defined.

(** ** Splitting a file into document parts *)

Section Split.
Context {A : Type} `{EqDecision A}.
Implicit Types s sep pre post p : list A.

Lemma bytes_HasPrefix_true s pre :
  bytes_HasPrefix s pre = true ↔ ∃ post, s = pre ++ post.
Proof.
  revert s. induction pre as [|c pre IH]; intros s; simpl.
  - split; [by exists s|done].
  - destruct s as [|d s].
    + split; [done|]. intros [post Hp]. discriminate.
    + rewrite andb_true_iff, bool_decide_eq_true, IH. split.
      * intros [-> [post ->]]. eauto.
      * intros [post Hp]. injection Hp as -> ->. eauto.
Qed.

Lemma occurs_in_nil sep : sep ≠ [] → ¬ occurs_in sep [].
Proof.
  intros Hsep (pre & post & Hs). symmetry in Hs.
  apply app_eq_nil in Hs as [_ Hs]. apply app_eq_nil in Hs as [Hs _]. done.
Qed.

Lemma occurs_in_cons a s sep :
  occurs_in sep (a :: s) ↔ bytes_HasPrefix (a :: s) sep = true ∨ occurs_in sep s.
Proof.
  rewrite bytes_HasPrefix_true. split.
  - intros (pre & post & Hs). destruct pre as [|b pre].
    + left. eauto.
    + right. injection Hs as -> ->. by exists pre, post.
  - intros [[post Hs]|(pre & post & ->)].
    + by exists [], post.
    + by exists (a :: pre), post.
Qed.

(** [bytes.Index] answers -1 exactly when the separator does not occur. *)
Lemma bytes_Index_None s sep :
  bytes_Index s sep = None ↔ ¬ occurs_in sep s.
Proof.
  induction s as [|a s IH]; simpl.
  - destruct (bytes_HasPrefix [] sep) eqn:E.
    + apply bytes_HasPrefix_true in E as [post E].
      split; [done|]. intros []. by exists [], post.
    + split; [|done]. intros _ (pre & post & Hs).
      symmetry in Hs. apply app_eq_nil in Hs as [-> Hs].
      apply app_eq_nil in Hs as [-> ->]. done.
  - rewrite occurs_in_cons.
    destruct (bytes_HasPrefix (a :: s) sep) eqn:E.
    + split; [done|]. intros []. by left.
    + rewrite fmap_None, IH. split; [|tauto].
      intros Hn [?|?]; [done|tauto].
Qed.

(** Where [bytes.Index] finds the separator, the text is what precedes,
    the separator, and what follows; the separator does not occur in
    what precedes. *)
Lemma bytes_Index_Some s sep m :
  bytes_Index s sep = Some m →
  s = take m s ++ sep ++ drop (m + length sep) s
  ∧ m + length sep ≤ length s
  ∧ (sep ≠ [] → ¬ occurs_in sep (take m s)).
Proof.
  revert m. induction s as [|a s IH]; intros m; simpl.
  - destruct (bytes_HasPrefix [] sep) eqn:E; [|done].
    intros [= <-]. apply bytes_HasPrefix_true in E as [post E].
    symmetry in E. apply app_eq_nil in E as [-> ->].
    split; [done|]. split; [simpl; lia|]. done.
  - destruct (bytes_HasPrefix (a :: s) sep) eqn:E.
    + intros [= <-]. apply bytes_HasPrefix_true in E as [post E].
      pose proof (f_equal length E) as Hl. rewrite length_app in Hl.
      rewrite E. simpl in *. rewrite drop_app_length.
      split; [done|]. split; [lia|].
      intros Hsep. by apply occurs_in_nil.
    + destruct (bytes_Index s sep) as [m'|] eqn:EI; [|done].
      intros [= <-]. destruct (IH m' eq_refl) as (Hs & Hlen & Hno).
      simpl. split; [by rewrite <- Hs|]. split; [lia|].
      intros Hsep. rewrite occurs_in_cons. intros [Hp|Ho]; [|by apply Hno].
      apply bytes_HasPrefix_true in Hp as [post Hp].
      assert (bytes_HasPrefix (a :: s) sep = true) as E'; [|congruence].
      apply bytes_HasPrefix_true.
      exists (post ++ drop m' s).
      rewrite app_assoc, <- Hp. simpl. by rewrite take_drop.
Qed.

Lemma bytes_Index_shorter s sep m :
  sep ≠ [] → bytes_Index s sep = Some m →
  length (drop (m + length sep) s) < length s.
Proof.
  intros Hsep Hi. apply bytes_Index_Some in Hi as (_ & Hlen & _).
  rewrite length_drop. destruct sep; [done|]. simpl in *. lia.
Qed.

Lemma Count_loop_add fuel s sep n :
  Count_loop fuel s sep n = n + Count_loop fuel s sep 0.
Proof.
  revert s n. induction fuel as [|fuel IH]; intros s n; simpl; [lia|].
  destruct (bytes_Index s sep) as [i|]; [|lia].
  rewrite (IH _ (S n)), (IH _ 1). lia.
Qed.

(** The bound [Count(s, sep) + 1] never stops the loop of [genSplit]
    early: the loop runs until the separator is no longer found. *)
Lemma genSplit_Count fuel s sep :
  sep ≠ [] → length s ≤ fuel →
  genSplit_loop (Count_loop fuel s sep 0) s sep = genSplit_loop fuel s sep.
Proof.
  intros Hsep. revert s. induction fuel as [|fuel IH]; intros s Hlen; simpl.
  - done.
  - destruct (bytes_Index s sep) as [i|] eqn:Hi; [|done].
    rewrite Count_loop_add. simpl. rewrite Hi. f_equal. apply IH.
    pose proof (bytes_Index_shorter s sep i Hsep Hi). lia.
Qed.

Lemma bytes_Split_fuel s sep :
  sep ≠ [] → bytes_Split s sep = genSplit_loop (length s) s sep.
Proof. intros Hsep. unfold bytes_Split, bytes_Count. by apply genSplit_Count. Qed.





Lemma genSplit_loop_clean fuel s sep :
  sep ≠ [] → length s ≤ fuel →
  Forall (λ p, ¬ occurs_in sep p) (genSplit_loop fuel s sep).
Proof.
  intros Hsep. revert s. induction fuel as [|fuel IH]; intros s Hlen; simpl.
  - destruct s; [|simpl in Hlen; lia].
    constructor; [by apply occurs_in_nil|constructor].
  - destruct (bytes_Index s sep) as [m|] eqn:Hi.
    + constructor.
      * by apply bytes_Index_Some in Hi as (_ & _ & Hno); auto.
      * apply IH. pose proof (bytes_Index_shorter s sep m Hsep Hi). lia.
    + constructor; [by apply bytes_Index_None|constructor].
Qed.

(** [bytes.Split] yields one part exactly when the separator does not
    occur. *)
Lemma bytes_Split_single s sep :
  sep ≠ [] → bytes_Split s sep = [s] ↔ ¬ occurs_in sep s.
Proof.
  intros Hsep. rewrite bytes_Split_fuel by done. split.
  - intros Hs. pose proof (genSplit_loop_clean (length s) s sep Hsep) as Hc.
    rewrite Hs in Hc. by apply Forall_inv in Hc; [|lia].
  - intros Hno. apply bytes_Index_None in Hno.
    destruct (length s) as [|n]; simpl; [done|]. by rewrite Hno.
Qed.
End Split.

Lemma separator_not_nil : pkg.separator ≠ [].
Proof. discriminate. Qed.




Section Loading.
Context (env : Env).




End Loading.


(** The two boundary cases and a proper separator, on small files. *)
Example Split_examples :
  bytes_Split (Fixture.bytes ("---" +:+ Fixture.nl +:+ "a: 1")) pkg.separator
  = [Fixture.bytes ("---" +:+ Fixture.nl +:+ "a: 1")]
  ∧ bytes_Split (Fixture.bytes ("a: 1" +:+ Fixture.nl +:+ "---")) pkg.separator
    = [Fixture.bytes ("a: 1" +:+ Fixture.nl +:+ "---")]
  ∧ bytes_Split (Fixture.bytes ("a: 1" +:+ Fixture.nl +:+ "---" +:+ Fixture.nl
                                 +:+ "b: 2")) pkg.separator
    = [Fixture.bytes "a: 1"; Fixture.bytes "b: 2"]
  ∧ bytes_Split [] pkg.separator = [[]].
Proof. repeat split; vm_compute; reflexivity. Qed.

(** A file that starts and ends with dashes and has one separator in
    between is loaded as two parts, and an empty file as one empty
    part. *)
Example loadConfigs_examples :
  let env :=
    Fixture.world [] []
      [("/c/a.yaml",
        Fixture.bytes ("---" +:+ Fixture.nl +:+ "a: 1" +:+ Fixture.nl +:+ "---"
                       +:+ Fixture.nl +:+ "b: 2" +:+ Fixture.nl +:+ "---"));
       ("/c/b.yaml", [])]
      Fixture.quiet in
  pkg.loadConfigs env ["/c/a.yaml"; "/c/b.yaml"]
  = Ok {[ "/c/a.yaml" :=
            [Fixture.bytes ("---" +:+ Fixture.nl +:+ "a: 1");
             Fixture.bytes ("b: 2" +:+ Fixture.nl +:+ "---")];
          "/c/b.yaml" := [[]] ]}.
Proof. vm_compute. reflexivity. Qed.

(** ** The patterns of the classifier *)

(** *** The matcher computes the denotation *)

Lemma append_empty_inv (w1 w2 : string) : w1 +:+ w2 = "" → w1 = "" ∧ w2 = "".
Proof. by destruct w1. Qed.

Lemma nullable_matches r : nullable r = true ↔ matches r "".
Proof.
  split.
  - induction r; simpl; intros Hn; try done.
    + constructor.
    + apply andb_true_iff in Hn as [H1 H2].
      change "" with ("" +:+ ""). constructor; auto.
    + apply orb_true_iff in Hn as [H1|H2];
        [apply matches_alt_l|apply matches_alt_r]; auto.
    + constructor.
    + constructor.
  - remember "" as w eqn:Hw. intros Hm.
    induction Hm; simpl; try done.
    + apply append_empty_inv in Hw as [-> ->]. by rewrite IHHm1, IHHm2.
    + by rewrite IHHm.
    + rewrite IHHm by done. apply orb_true_r.
Qed.

(** A non-empty string in a starred expression starts with a non-empty
    string of the expression. *)
Lemma matches_star_cons_inv r c w :
  matches (RStar r) (String c w) →
  ∃ w1 w2, w = w1 +:+ w2 ∧ matches r (String c w1) ∧ matches (RStar r) w2.
Proof.
  assert (∀ r' s, matches r' s → ∀ w', r' = RStar r → s = String c w' →
            ∃ w1 w2, w' = w1 +:+ w2 ∧ matches r (String c w1)
                     ∧ matches (RStar r) w2) as Hgen.
  { induction 1 as [| | | | | | | | |r0 u1 u2 H1 _ H2 IH2];
      intros w' Hr Hs; try discriminate.
    injection Hr as ->. destruct u1 as [|d u1].
    - by apply IH2.
    - change (String d u1 +:+ u2) with (String d (u1 +:+ u2)) in Hs.
      injection Hs as -> <-. by exists u1, u2. }
  intros Hm. by apply (Hgen _ _ Hm).
Qed.

Lemma matches_cat_inv r1 r2 w :
  matches (RCat r1 r2) w →
  ∃ w1 w2, w = w1 +:+ w2 ∧ matches r1 w1 ∧ matches r2 w2.
Proof. inversion 1; subst; eauto. Qed.

Lemma matches_alt_inv r1 r2 w :
  matches (RAlt r1 r2) w → matches r1 w ∨ matches r2 w.
Proof. inversion 1; subst; auto. Qed.

Lemma matches_cat_cons r1 r2 c w1 w2 :
  matches r1 (String c w1) → matches r2 w2 →
  matches (RCat r1 r2) (String c (w1 +:+ w2)).
Proof.
  intros H1 H2. change (String c (w1 +:+ w2)) with (String c w1 +:+ w2).
  by constructor.
Qed.

Lemma deriv_matches c r w : matches (deriv c r) w ↔ matches r (String c w).
Proof.
  revert w. induction r as [| |a|ranges|r1 IH1 r2 IH2|r1 IH1 r2 IH2|r IH|r IH];
    intros w; simpl.
  - split; inversion 1.
  - split; inversion 1.
  - unfold ascii_eqb. case_bool_decide as Hc.
    + subst a. split; inversion 1; subst; constructor.
    + split; inversion 1; by subst.
  - destruct (in_class c ranges) eqn:Hc.
    + split; inversion 1; subst; by constructor.
    + split; inversion 1; subst; congruence.
  - assert (matches (RCat (deriv c r1) r2) w
            → matches (RCat r1 r2) (String c w)) as Hcat.
    { intros (w1 & w2 & -> & H1 & H2)%matches_cat_inv.
      apply matches_cat_cons; [by apply IH1|done]. }
    assert (matches (RCat r1 r2) (String c w)
            → matches (RCat (deriv c r1) r2) w
              ∨ (nullable r1 = true ∧ matches (deriv c r2) w)) as Hinv.
    { intros (w1 & w2 & Hs & H1 & H2)%matches_cat_inv.
      destruct w1 as [|d w1].
      - change ("" +:+ w2) with w2 in Hs. subst w2.
        right. split; [by apply nullable_matches|by apply IH2].
      - change (String d w1 +:+ w2) with (String d (w1 +:+ w2)) in Hs.
        injection Hs as -> ->. left. constructor; [by apply IH1|done]. }
    destruct (nullable r1) eqn:Hn.
    + split.
      * intros [Hm|Hm]%matches_alt_inv; [by apply Hcat|].
        change (String c w) with ("" +:+ String c w).
        constructor; [by apply nullable_matches|by apply IH2].
      * intros Hm. destruct (Hinv Hm) as [?|[_ ?]];
          [by apply matches_alt_l|by apply matches_alt_r].
    + split; [exact Hcat|]. intros Hm. by destruct (Hinv Hm) as [?|[? _]].
  - split.
    + intros [Hm|Hm]%matches_alt_inv;
        [apply matches_alt_l; by apply IH1|apply matches_alt_r; by apply IH2].
    + intros [Hm|Hm]%matches_alt_inv;
        [apply matches_alt_l; by apply IH1|apply matches_alt_r; by apply IH2].
  - rewrite IH. split; [by constructor|by inversion 1].
  - split.
    + intros (w1 & w2 & -> & H1 & H2)%matches_cat_inv.
      change (String c (w1 +:+ w2)) with (String c w1 +:+ w2).
      constructor; [by apply IH|done].
    + intros (w1 & w2 & -> & H1 & H2)%matches_star_cons_inv.
      constructor; [by apply IH|done].
Qed.

(** [match_at] finds the prefixes the expression denotes, and
    [MatchString] the substrings. *)
Lemma match_at_matches r s :
  match_at r s = true ↔ ∃ w rest, s = w +:+ rest ∧ matches r w.
Proof.
  revert r. induction s as [|c s IH]; intros r; simpl.
  - rewrite orb_false_r, nullable_matches. split.
    + intros Hm. by exists "", "".
    + intros (w & rest & [-> ->]%eq_sym%append_empty_inv & Hm). done.
  - rewrite orb_true_iff, nullable_matches, IH. split.
    + intros [Hm|(w & rest & -> & Hm)].
      * by exists "", (String c s).
      * exists (String c w), rest. split; [done|]. by apply deriv_matches.
    + intros (w & rest & Hs & Hm). destruct w as [|d w]; [by left|].
      change (String d w +:+ rest) with (String d (w +:+ rest)) in Hs.
      injection Hs as <- ->. right. exists w, rest.
      split; [done|]. by apply deriv_matches.
Qed.

Lemma MatchString_matches r s :
  MatchString r s = true
  ↔ ∃ pre w post, s = pre +:+ w +:+ post ∧ matches r w.
Proof.
  induction s as [|c s IH]; cbn [MatchString].
  - rewrite orb_false_r, match_at_matches. split.
    + intros (w & rest & Hs & Hm). by exists "", w, rest.
    + intros (pre & w & post & Hs & Hm). symmetry in Hs.
      apply append_empty_inv in Hs as [-> Hs]. by exists w, post.
  - rewrite orb_true_iff, match_at_matches, IH. split.
    + intros [(w & rest & Hs & Hm)|(pre & w & post & -> & Hm)].
      * by exists "", w, rest.
      * by exists (String c pre), w, post.
    + intros (pre & w & post & Hs & Hm). destruct pre as [|d pre].
      * left. by exists w, post.
      * change (String d pre +:+ w +:+ post)
          with (String d (pre +:+ w +:+ post)) in Hs.
        injection Hs as <- ->. right. by exists pre, w, post.
Qed.


Lemma match_at_nullable r s : nullable r = true → match_at r s = true.
Proof. intros Hn. destruct s; simpl; by rewrite Hn. Qed.

Lemma match_at_RFail s : match_at RFail s = false.
Proof. induction s; simpl; auto. Qed.

Lemma match_at_RFail_cat r s : match_at (RCat RFail r) s = false.
Proof. induction s; simpl; auto. Qed.

Lemma match_at_RAlt r1 r2 s :
  match_at (RAlt r1 r2) s = match_at r1 s || match_at r2 s.
Proof.
  revert r1 r2. induction s as [|c s IH]; intros r1 r2; simpl.
  - by rewrite !orb_false_r.
  - rewrite IH.
    destruct (nullable r1), (nullable r2), (match_at (deriv c r1) s); done.
Qed.

Lemma match_at_REmpty_cat r s : match_at (RCat REmpty r) s = match_at r s.
Proof.
  destruct s as [|c s]; simpl; [done|].
  by rewrite match_at_RAlt, match_at_RFail_cat.
Qed.

(** A literal consumes exactly its own character. *)
Lemma match_at_RLit_cat a r s :
  match_at (RCat (RLit a) r) s
  = match s with
    | EmptyString => false
    | String c s' => ascii_eqb c a && match_at r s'
    end.
Proof.
  destruct s as [|c s]; simpl; [done|].
  destruct (ascii_eqb c a); simpl.
  - apply match_at_REmpty_cat.
  - apply match_at_RFail_cat.
Qed.

Lemma match_at_literal4 a b c d r s :
  nullable r = true →
  match_at (RCat (RLit a) (RCat (RLit b) (RCat (RLit c) (RCat (RLit d) r)))) s
  = strings_HasPrefix s (String a (String b (String c (String d EmptyString)))).
Proof.
  intros Hn. rewrite match_at_RLit_cat. destruct s as [|x1 s]; [done|].
  rewrite match_at_RLit_cat. destruct s as [|x2 s]; simpl; [done|].
  rewrite match_at_RLit_cat. destruct s as [|x3 s]; simpl; [done|].
  rewrite match_at_RLit_cat. destruct s as [|x4 s]; simpl; [done|].
  by rewrite (match_at_nullable r s Hn), andb_true_r.
Qed.

Lemma MatchString_literal4 a b c d r s :
  nullable r = true →
  MatchString (RCat (RLit a) (RCat (RLit b) (RCat (RLit c) (RCat (RLit d) r)))) s
  = strings_Contains s (String a (String b (String c (String d EmptyString)))).
Proof.
  intros Hn. induction s as [|x s IH].
  - reflexivity.
  - cbn [MatchString strings_Contains].
    by rewrite IH, match_at_literal4.
Qed.

(** The denial pattern is found in a name exactly when the name contains
    [deny], anywhere; likewise for the warning pattern and [warn]. *)
Lemma MatchString_failQ n : MatchString pkg.failQ n = strings_Contains n "deny".
Proof. by apply MatchString_literal4. Qed.

Lemma MatchString_warnQ n : MatchString pkg.warnQ n = strings_Contains n "warn".
Proof. by apply MatchString_literal4. Qed.

(** ** Classification *)

Lemma classify_rules_spec rules qs :
  foldl pkg.classify_rule qs rules
  = (qs.1 ++ filter (λ n, MatchString pkg.failQ n)
                    (map (λ r, ast.Name (ast.Head r)) rules),
     qs.2 ++ filter (λ n, MatchString pkg.warnQ n)
                    (map (λ r, ast.Name (ast.Head r)) rules)).
Proof.
  revert qs. induction rules as [|r rules IH]; intros [fq wq]; simpl.
  - by rewrite !app_nil_r.
  - rewrite IH. unfold pkg.classify_rule. simpl.
    rewrite !filter_cons.
    destruct (MatchString pkg.failQ _), (MatchString pkg.warnQ _); simpl;
      repeat case_decide; try done; by rewrite <- ?app_assoc.
Qed.

Lemma classify_modules_spec mods qs :
  foldl pkg.classify_module qs mods
  = (qs.1 ++ mods ≫= selected pkg.failQ, qs.2 ++ mods ≫= selected pkg.warnQ).
Proof.
  revert qs. induction mods as [|m mods IH]; intros [fq wq]; simpl.
  - by rewrite !app_nil_r.
  - rewrite IH. unfold pkg.classify_module. rewrite classify_rules_spec.
    simpl. by rewrite <- !app_assoc.
Qed.

(** The denial names are the selected names of each module, module after
    module in visiting order, rule after rule in source order; the same
    for the warning names. *)
Lemma classify_spec mods :
  pkg.classify mods
  = (mods ≫= selected pkg.failQ, mods ≫= selected pkg.warnQ).
Proof. unfold pkg.classify. by rewrite classify_modules_spec. Qed.

Lemma reversed_visits_all : pkg.visits_all Fixture.reversed.
Proof. split_and!; intros; simpl; apply reverse_Permutation. Qed.

Lemma listed_visits_all : pkg.visits_all pkg.listed.
Proof. by split_and!. Qed.

(** Only names in which a pattern is found become queries. *)
Lemma classify_selects mods n :
  (n ∈ (pkg.classify mods).1 → strings_Contains n "deny" = true)
  ∧ (n ∈ (pkg.classify mods).2 → strings_Contains n "warn" = true).
Proof.
  rewrite classify_spec. simpl. unfold selected.
  split; intros (m & Hn & _)%list_elem_of_bind;
    apply list_elem_of_filter in Hn as [Hn _];
    apply Is_true_true in Hn.
  - by rewrite <- MatchString_failQ.
  - by rewrite <- MatchString_warnQ.
Qed.

(** C4. The patterns are searched for anywhere in the name: a rule is
    filed as a denial exactly when its name contains [deny], as a warning
    exactly when it contains [warn]. The helper rules [is_denylisted] and
    [forewarned], whose names do not begin with [deny] or [warn], are
    filed and dispatched as checks. *)
Theorem classify_finds_pattern_anywhere :
  (∀ n, MatchString pkg.failQ n = strings_Contains n "deny")
  ∧ (∀ n, MatchString pkg.warnQ n = strings_Contains n "warn")
  ∧ pkg.classify
      [Fixture.module ["is_hpa"; "is_denylisted"; "deny_no_hpa"; "forewarned"]]
    = (["is_denylisted"; "deny_no_hpa"], ["forewarned"])
  ∧ trace (pkg.Run
             (Fixture.world
                [("main.rego",
                  ["is_hpa"; "is_denylisted"; "deny_no_hpa"; "forewarned"])]
                [] [("/c/a.yaml", Fixture.bytes "kind: A")] Fixture.quiet)
             pkg.listed (Fixture.checker ["/c/a.yaml"]))
    = [EvQuery "data.main.is_denylisted" (VString "kind: A");
       EvQuery "data.main.deny_no_hpa" (VString "kind: A");
       EvQuery "data.main.forewarned" (VString "kind: A")].
Proof.
  split_and!.
  - apply MatchString_failQ.
  - apply MatchString_warnQ.
  - vm_compute. reflexivity.
  - vm_compute. reflexivity.
Qed.

(** ** Classification and the visiting order of the modules *)

Lemma Permutation_short {A : Type} (l1 l2 : list A) :
  l1 ≡ₚ l2 → length l1 ≤ 1 → l1 = l2.
Proof.
  intros Hp Hlen. destruct l1 as [|x [|y l1]]; simpl in Hlen; [..|lia].
  - by apply Permutation_nil_l in Hp.
  - by apply Permutation_singleton_l in Hp.
Qed.

(** The rule-set of the counterexample: two modules with one denial
    rule each. *)
Lemma classify_two_modules_orders :
  let ms : gmap string ast.Module :=
    {[ "a.rego" := Fixture.module ["deny_a"];
       "b.rego" := Fixture.module ["deny_b"] ]} in
  pkg.order_Modules pkg.listed "/c/a.yaml" ms
  = [("a.rego", Fixture.module ["deny_a"]);
     ("b.rego", Fixture.module ["deny_b"])]
  ∧ pkg.order_Modules Fixture.reversed "/c/a.yaml" ms
    = [("b.rego", Fixture.module ["deny_b"]);
       ("a.rego", Fixture.module ["deny_a"])].
Proof. split; vm_compute; reflexivity. Qed.

(** C5, as stated, fails: for one compiled rule-set, two visiting orders
    of the module map, each visiting every module once, give different
    denial sequences, and the failure messages of the same file come out
    in a different order. *)
Lemma classify_order_counterexample :
  let ms : gmap string ast.Module :=
    {[ "a.rego" := Fixture.module ["deny_a"];
       "b.rego" := Fixture.module ["deny_b"] ]} in
  let env :=
    Fixture.world [("a.rego", ["deny_a"]); ("b.rego", ["deny_b"])] []
                  [("/c/a.yaml", Fixture.bytes "kind: A")] Fixture.echo in
  let failures (sched : pkg.schedule) :=
    match out (pkg.Run env sched (Fixture.checker ["/c/a.yaml"])) with
    | Done (cr, _) => pkg.Failures <$> cr !! "/c/a.yaml"
    | Panicked => None
    end in
  pkg.visits_all pkg.listed ∧ pkg.visits_all Fixture.reversed
  ∧ pkg.classify (pkg.order_Modules pkg.listed "/c/a.yaml" ms).*2
    = (["deny_a"; "deny_b"], [])
  ∧ pkg.classify (pkg.order_Modules Fixture.reversed "/c/a.yaml" ms).*2
    = (["deny_b"; "deny_a"], [])
  ∧ failures pkg.listed
    = Some [Some (errorString "data.main.deny_a");
            Some (errorString "data.main.deny_b")]
  ∧ failures Fixture.reversed
    = Some [Some (errorString "data.main.deny_b");
            Some (errorString "data.main.deny_a")].
Proof.
  split_and!.
  - apply listed_visits_all.
  - apply reversed_visits_all.
  - vm_compute. reflexivity.
  - vm_compute. reflexivity.
  - vm_compute. reflexivity.
  - vm_compute. reflexivity.
Qed.

(** C5, amended. For a compiled rule-set and any two visiting orders of
    its module map: within each order the names are collected module
    after module and, inside a module, rule after rule in source order;
    the two denial sequences hold the same names with the same
    multiplicities, and so do the two warning sequences; and the
    sequences are identical when the rule-set has at most one module. *)
Theorem classify_up_to_visiting_order (ms : gmap string ast.Module)
    (l1 l2 : list (string * ast.Module)) :
  l1 ≡ₚ map_to_list ms → l2 ≡ₚ map_to_list ms →
  pkg.classify l1.*2
  = (l1.*2 ≫= selected pkg.failQ, l1.*2 ≫= selected pkg.warnQ)
  ∧ (pkg.classify l1.*2).1 ≡ₚ (pkg.classify l2.*2).1
  ∧ (pkg.classify l1.*2).2 ≡ₚ (pkg.classify l2.*2).2
  ∧ (size ms ≤ 1 → pkg.classify l1.*2 = pkg.classify l2.*2).
Proof.
  intros H1 H2. split_and!.
  - apply classify_spec.
  - rewrite !classify_spec. simpl. by rewrite H1, H2.
  - rewrite !classify_spec. simpl. by rewrite H1, H2.
  - intros Hsize. f_equal. f_equal. apply Permutation_short.
    + by rewrite H1, H2.
    + by rewrite H1, length_map_to_list.
Qed.

(** An instance: a rule-set of two modules, visited in the two possible
    orders. *)
Lemma classify_up_to_visiting_order_witness :
  let ms : gmap string ast.Module :=
    {[ "a.rego" := Fixture.module ["deny_a"; "warn_a"];
       "b.rego" := Fixture.module ["deny_b"] ]} in
  (pkg.classify (map_to_list ms).*2).1
  ≡ₚ (pkg.classify (reverse (map_to_list ms)).*2).1.
Proof.
  intros ms.
  apply (classify_up_to_visiting_order ms (map_to_list ms)
           (reverse (map_to_list ms))).
  - reflexivity.
  - apply reverse_Permutation.
Defined.

(** ** Computations *)

Lemma out_bind {A B : Type} (m : M A) (f : A → M B) :
  out (m ≫= f)
  = match out m with Done a => out (f a) | Panicked => Panicked end.
Proof. unfold mbind, M_bind. by destruct (out m). Qed.

Lemma trace_bind {A B : Type} (m : M A) (f : A → M B) :
  trace (m ≫= f)
  = match out m with
    | Done a => trace m ++ trace (f a)
    | Panicked => trace m
    end.
Proof. unfold mbind, M_bind. by destruct (out m). Qed.

(** Case analysis on how the first computation of a sequence ends. *)
Ltac bind_cases m a E :=
  rewrite ?out_bind, ?trace_bind in *; destruct (out m) as [a|] eqn:E.

(** ** Dispatching queries *)

Section Dispatch.
Context (env : Env).
Implicit Types (compiler : option ast.Compiler) (input : value).

(** Every call of [runQuery] is one event, however the call ends. *)
Lemma runQuery_trace query input compiler :
  trace (pkg.runQuery env query input compiler) = [EvQuery query input].
Proof.
  unfold pkg.runQuery, pkg.Query_Build, mbind, M_bind. simpl.
  destruct (rego_PrepareForEval env _); [|done].
  destruct (rego_Eval env _); done.
Qed.

Lemma run_queries_Done ns queries input compiler acc acc' :
  out (pkg.run_queries env ns queries input compiler acc) = Done acc' →
  trace (pkg.run_queries env ns queries input compiler acc)
  = map (λ q, EvQuery ("data." +:+ ns +:+ "." +:+ q) input) queries
  ∧ length acc' = length acc + length queries.
Proof.
  revert acc. induction queries as [|q queries IH]; intros acc;
    cbn [pkg.run_queries map length].
  - intros [= <-]. split; [done|lia].
  - bind_cases (pkg.runQuery env ("data." +:+ ns +:+ "." +:+ q) input compiler)
               e E; [|done].
    intros Hd. destruct (IH _ Hd) as [-> ->].
    rewrite runQuery_trace, length_app. simpl. split; [done|lia].
Qed.

Lemma run_queries_bound ns queries input compiler acc :
  length (trace (pkg.run_queries env ns queries input compiler acc))
  ≤ length queries.
Proof.
  revert acc. induction queries as [|q queries IH]; intros acc;
    cbn [pkg.run_queries length]; [done|].
  bind_cases (pkg.runQuery env ("data." +:+ ns +:+ "." +:+ q) input compiler)
             e E; rewrite ?length_app, runQuery_trace; simpl.
  - specialize (IH (acc ++ [e])). lia.
  - lia.
Qed.

(** A file whose processing completes: every part was decoded, each
    decoded part was sent to all denial queries and then to all warning
    queries, parts in source order, and each call added one entry to its
    list. *)
Lemma process_parts_Done p ns fQ wQ compiler parts fails warns fs ws :
  out (pkg.process_parts env p ns fQ wQ compiler parts fails warns)
  = Done (fs, ws, None) →
  ∃ inputs,
    Forall2 (λ part input, p part = Ok input) parts inputs
    ∧ trace (pkg.process_parts env p ns fQ wQ compiler parts fails warns)
      = inputs ≫= queries_for ns fQ wQ
    ∧ length fs = length fails + length parts * length fQ
    ∧ length ws = length warns + length parts * length wQ.
Proof.
  revert fails warns. induction parts as [|part parts IH]; intros fails warns;
    cbn [pkg.process_parts length].
  - intros [= <- <-]. exists []. split_and!; [constructor|done|lia|lia].
  - destruct (p part) as [input|err] eqn:Hp; [|done].
    bind_cases (pkg.run_queries env ns fQ input compiler fails) fails' Ef;
      [|done].
    bind_cases (pkg.run_queries env ns wQ input compiler warns) warns' Ew;
      [|done].
    intros Hd. destruct (IH _ _ Hd) as (inputs & HF & Htr & Hfs & Hws).
    apply run_queries_Done in Ef as [Etf Elf].
    apply run_queries_Done in Ew as [Etw Elw].
    exists (input :: inputs). split_and!.
    + by constructor.
    + rewrite Htr, Etf, Etw, bind_cons. unfold queries_for.
      by rewrite map_app, <- app_assoc.
    + lia.
    + lia.
Qed.

Lemma process_parts_bound p ns fQ wQ compiler parts fails warns :
  length (trace (pkg.process_parts env p ns fQ wQ compiler parts fails warns))
  ≤ length parts * (length fQ + length wQ).
Proof.
  revert fails warns. induction parts as [|part parts IH]; intros fails warns;
    cbn [pkg.process_parts length]; [done|].
  destruct (p part) as [input|err]; [|simpl; lia].
  pose proof (run_queries_bound ns fQ input compiler fails) as Hf.
  bind_cases (pkg.run_queries env ns fQ input compiler fails) fails' Ef;
    [|lia].
  pose proof (run_queries_bound ns wQ input compiler warns) as Hw.
  bind_cases (pkg.run_queries env ns wQ input compiler warns) warns' Ew;
    rewrite ?length_app; [|lia].
  specialize (IH fails' warns'). lia.
Qed.

Lemma queries_for_length ns fQ wQ (inputs : list value) :
  length (inputs ≫= queries_for ns fQ wQ)
  = length inputs * (length fQ + length wQ).
Proof.
  induction inputs as [|input inputs IH]; [done|].
  rewrite bind_cons, length_app, IH. unfold queries_for.
  rewrite length_map, length_app. simpl. lia.
Qed.

(** The dispatcher is never called more often than once per part and
    name. *)
Lemma evaluation_calls_bound (sched : pkg.schedule) (ns fileName : string)
    (parts : list (list byte)) (a : ast.Compiler) :
  let qs :=
    pkg.classify (pkg.order_Modules sched fileName (ast.Modules a)).*2 in
  length (trace (pkg.processFile env sched ns fileName parts (Some a)))
  ≤ length parts * (length qs.1 + length qs.2).
Proof.
  intros qs. unfold pkg.processFile.
  destruct (parsers.Get (yaml_Unmarshal env) fileName); [|simpl; lia].
  apply process_parts_bound.
Qed.
End Dispatch.

(** ** A file without violations *)

Section Clean.
Context (env : Env).

Lemma run_queries_clean ns queries input compiler acc :
  (∀ q, out (pkg.runQuery env q input compiler) = Done None) →
  out (pkg.run_queries env ns queries input compiler acc)
  = Done (acc ++ replicate (length queries) None).
Proof.
  intros Hclean. revert acc.
  induction queries as [|q queries IH]; intros acc;
    cbn [pkg.run_queries length replicate].
  - by rewrite app_nil_r.
  - rewrite out_bind, Hclean. cbv beta iota. rewrite IH.
    by rewrite <- app_assoc.
Qed.

(** When no query produces a message, every call still adds an entry,
    the [nil] error, to the list of its class. *)
Lemma process_parts_clean p ns fQ wQ compiler parts fails warns :
  Forall (λ part, ∃ input, p part = Ok input
            ∧ ∀ q, out (pkg.runQuery env q input compiler) = Done None) parts →
  out (pkg.process_parts env p ns fQ wQ compiler parts fails warns)
  = Done (fails ++ replicate (length parts * length fQ) None,
          warns ++ replicate (length parts * length wQ) None, None).
Proof.
  intros HF. revert fails warns.
  induction HF as [|part parts (input & Hp & Hclean) _ IH]; intros fails warns;
    cbn [pkg.process_parts length].
  - by rewrite !app_nil_r.
  - rewrite Hp, out_bind, run_queries_clean by done. cbv beta iota.
    rewrite out_bind, run_queries_clean by done. cbv beta iota.
    rewrite IH. cbn [Nat.mul]. by rewrite !replicate_add, !app_assoc.
Qed.

(** At the level of a file: with a supported extension, parts that all
    decode and queries that all return [nil], the failures list holds
    K × N [nil] errors and the warnings list K × M. *)
Lemma processFile_clean sched ns fileName parts a :
  filepath_Ext fileName ∈ supported →
  Forall (λ part, ∃ input,
            parsers.parseYAML (yaml_Unmarshal env) part = Ok input
            ∧ ∀ q, out (pkg.runQuery env q input (Some a)) = Done None) parts →
  let qs :=
    pkg.classify (pkg.order_Modules sched fileName (ast.Modules a)).*2 in
  out (pkg.processFile env sched ns fileName parts (Some a))
  = Done (replicate (length parts * length qs.1) None,
          replicate (length parts * length qs.2) None, None).
Proof.
  intros Hext HF qs. unfold pkg.processFile.
  rewrite (Get_supported env fileName Hext).
  by rewrite (process_parts_clean _ _ _ _ _ _ [] [] HF).
Qed.
End Clean.

(** C1. A file of two parts, checked against one denial rule and one
    warning rule that never produce a message: the recorded failures and
    warnings are not empty, they hold one [nil] error per part and rule;
    the report prints them as failures and warnings and never prints
    that the file passed. *)
Theorem clean_file_has_nil_entries :
  let env :=
    Fixture.world [("main.rego", ["deny"; "warn"; "is_hpa"])] []
      [("/c/a.yaml",
        Fixture.bytes ("kind: A" +:+ Fixture.nl +:+ "---" +:+ Fixture.nl
                       +:+ "kind: B"))]
      Fixture.quiet in
  out (pkg.Run env pkg.listed (Fixture.checker ["/c/a.yaml"]))
  = Done ({[ "/c/a.yaml" := {| pkg.Failures := [None; None];
                               pkg.Warnings := [None; None] |} ]}, None)
  ∧ main.main env pkg.listed (Fixture.arguments false ["/c/a.yaml"])
    = ([main.Yellow "Warning: /c/a.yaml - %!s(<nil>)";
        main.Yellow "Warning: /c/a.yaml - %!s(<nil>)";
        main.Red "Failure: /c/a.yaml - %!s(<nil>)";
        main.Red "Failure: /c/a.yaml - %!s(<nil>)"], 0%Z).
Proof. split; vm_compute; reflexivity. Qed.

(** The run of the README. Its documented output is the first and the
    third line below; the two lines with a [nil] error come from the
    second document, which violates neither rule. *)
Example readme_run :
  let env :=
    Fixture.world
      [("main.rego", ["is_hpa"; "deny_no_hpa"; "warn_no_default_namespace"])]
      []
      [("/example/test.yaml",
        Fixture.bytes Fixture.readme_manifest)]
      Fixture.readme_policy in
  main.main env pkg.listed (Fixture.arguments false ["/example/test.yaml"])
  = ([main.Yellow ("Warning: /example/test.yaml - nginx-deployment should "
                   +:+ "not be configured to live in the default namespace");
      main.Yellow "Warning: /example/test.yaml - %!s(<nil>)";
      main.Red ("Failure: /example/test.yaml - nginx-deployment must not "
                +:+ "include any Horizontal Pod AutoScalers");
      main.Red "Failure: /example/test.yaml - %!s(<nil>)"], 0%Z).
Proof. vm_compute. reflexivity. Qed.

(** ** Results that are not strings *)

Lemma append_values_not_string vs v err :
  v ∈ vs → (∀ s, v ≠ VString s) → pkg.append_values vs err = Panicked.
Proof.
  intros Hin Hv. revert err.
  induction Hin as [v vs|v w vs Hin IH]; intros err; simpl.
  - destruct v; try done. exfalso. by apply (Hv s).
  - destruct w; try done. by apply IH.
Qed.

Lemma append_expressions_not_string es e vs v err :
  e ∈ es → rego.Value e = VArray vs → v ∈ vs → (∀ s, v ≠ VString s) →
  pkg.append_expressions es err = Panicked.
Proof.
  intros He Hval Hv Hns. revert err.
  induction He as [e es|e e0 es He IH]; intros err;
    cbn [pkg.append_expressions].
  - rewrite Hval. destruct vs as [|v0 vs]; [by inversion Hv|].
    cbn [pkg.hasResults length Nat.ltb Nat.leb].
    by rewrite (append_values_not_string (v0 :: vs) v err Hv Hns).
  - destruct (pkg.hasResults (rego.Value e0)); [|by apply IH].
    destruct (rego.Value e0); try done.
    destruct (pkg.append_values elems err); [by apply IH|done].
Qed.

(** A binding with an element that is not a string makes the extraction
    of messages panic, whatever the other results are. *)
Lemma append_results_not_string rr r e vs v err :
  r ∈ rr → e ∈ rego.Expressions r → rego.Value e = VArray vs →
  v ∈ vs → (∀ s, v ≠ VString s) →
  pkg.append_results rr err = Panicked.
Proof.
  intros Hr He Hval Hv Hns. revert err.
  induction Hr as [r rr|r r0 rr Hr IH]; intros err; cbn [pkg.append_results].
  - by rewrite (append_expressions_not_string _ e vs v err He Hval Hv Hns).
  - destruct (pkg.append_expressions (rego.Expressions r0) err);
      [by apply IH|done].
Qed.

(** A binding with an element that is not a string makes [runQuery]
    panic. *)
Lemma runQuery_not_string env query input compiler pq rr r e vs v :
  rego_PrepareForEval env
    {| rego.Query := query; rego.Compiler := compiler; rego.Input := input |}
  = Ok pq →
  rego_Eval env pq = Ok rr →
  r ∈ rr → e ∈ rego.Expressions r → rego.Value e = VArray vs →
  v ∈ vs → (∀ s, v ≠ VString s) →
  out (pkg.runQuery env query input compiler) = Panicked.
Proof.
  intros Hprep Heval Hr He Hval Hv Hns.
  unfold pkg.runQuery, pkg.Query_Build. rewrite out_bind. simpl.
  rewrite Hprep, Heval. simpl.
  by rewrite (append_results_not_string rr r e vs v None Hr He Hval Hv Hns).
Qed.

(** C7. A rule whose result holds the number 42 instead of a message:
    [runQuery] panics in the type assertion, no error value is returned,
    and the process crashes (exit status 2). *)
Theorem runQuery_panics_on_non_string :
  let env :=
    Fixture.world [("main.rego", ["deny"])] []
      [("/c/a.yaml", Fixture.bytes "kind: A")] Fixture.ill_typed in
  rego_Eval env
    {| rego.prepared := {| rego.Query := "data.main.deny";
                           rego.Compiler := None;
                           rego.Input := VString "kind: A" |} |}
  = Ok [ {| rego.Expressions :=
              [ {| rego.Value := VArray [VNumber "42"]; rego.Text := "" |} ] |} ]
  ∧ pkg.runQuery env "data.main.deny" (VString "kind: A") None
    = mkM [EvQuery "data.main.deny" (VString "kind: A")] Panicked
  ∧ out (pkg.Run env pkg.listed (Fixture.checker ["/c/a.yaml"])) = Panicked
  ∧ (main.main env pkg.listed (Fixture.arguments false ["/c/a.yaml"])).2 = 2%Z.
Proof. split_and!; vm_compute; reflexivity. Qed.

(** ** The exit status *)

Section Exit.
Context (env : Env) (sched : pkg.schedule).

(** [confCheck] returns [nil] whenever [Run] succeeded: the error it
    traps in the loop over the failures is dropped at the end. *)
Lemma confCheck_returns_nil (a : main.args) (cr : pkg.CheckResults) :
  out (pkg.Run env sched
         (pkg.NewConfChecker (main.namespace a) (main.policyDir a)
                             (main.configs a)))
  = Done (cr, None) →
  ∃ ls, out (main.confCheck env sched a) = Done (ls, None).
Proof.
  intros HR. unfold main.confCheck. rewrite out_bind, HR. cbv beta iota.
  destruct (main.report _ _ _) as [ls err]. by exists ls.
Qed.

(** So the exit status is 0 whenever [Run] succeeded, whatever the
    results hold and whether strict mode is on or off. *)
Lemma main_exit_zero (a : main.args) (cr : pkg.CheckResults) :
  out (pkg.Run env sched
         (pkg.NewConfChecker (main.namespace a) (main.policyDir a)
                             (main.configs a)))
  = Done (cr, None) →
  (main.main env sched a).2 = 0%Z.
Proof.
  intros HR. destruct (confCheck_returns_nil a cr HR) as [ls Hc].
  unfold main.main. by rewrite Hc.
Qed.
End Exit.

(** C2. A run in which one denial rule reports [boom] for the file, and
    a strict run in which one warning rule reports [careful]: compilation
    and evaluation succeed, a failure message (in strict mode, a warning
    message) is recorded and printed, and the exit status is 0. *)
Theorem exit_status_zero_despite_failure :
  let policies := [("main.rego", ["deny"; "warn"])] in
  let files := [("/c/a.yaml", Fixture.bytes "kind: A")] in
  let env1 := Fixture.world policies [] files (Fixture.denying "boom") in
  let env2 := Fixture.world policies [] files (Fixture.warning "careful") in
  out (pkg.Run env1 pkg.listed (Fixture.checker ["/c/a.yaml"]))
  = Done ({[ "/c/a.yaml" :=
               {| pkg.Failures := [Some (errorString "boom")];
                  pkg.Warnings := [None] |} ]}, None)
  ∧ main.main env1 pkg.listed (Fixture.arguments false ["/c/a.yaml"])
    = ([main.Yellow "Warning: /c/a.yaml - %!s(<nil>)";
        main.Red "Failure: /c/a.yaml - boom"], 0%Z)
  ∧ out (pkg.Run env2 pkg.listed (Fixture.checker ["/c/a.yaml"]))
    = Done ({[ "/c/a.yaml" :=
                 {| pkg.Failures := [None];
                    pkg.Warnings := [Some (errorString "careful")] |} ]}, None)
  ∧ main.main env2 pkg.listed (Fixture.arguments true ["/c/a.yaml"])
    = ([main.Red "Failure: /c/a.yaml - careful";
        main.Red "Failure: /c/a.yaml - %!s(<nil>)"], 0%Z).
Proof. split_and!; vm_compute; reflexivity. Qed.

(** ** A successful build *)

Section Building.
Context (env : Env).

Lemma Build_ok c compiler :
  pkg.Build env c = (compiler, None) →
  ∃ a, pkg.Compiler_ compiler = Some a.
Proof.
  unfold pkg.Build. destruct (pkg.readPolicies env _); [|done].
  unfold ast.Failed. destruct (ast.Errors _) eqn:E; [done|].
  intros [= <-]. eauto.
Qed.

End Building.

(** ** Reading the policies *)

Section Policies.
Context (env : Env).

(** What the loop over the candidate files adds to the modules: only
    files whose name ends in [.rego], read from the directory and
    parsed. *)
Lemma readPolicies_loop_lookup dirPath files ms0 ms name m :
  pkg.readPolicies_loop env dirPath files ms0 = Ok ms →
  ms !! name = Some m →
  ms0 !! name = Some m
  ∨ (strings_HasSuffix name ".rego" = true
     ∧ ∃ file out,
         file ∈ files ∧ os.Name file = name
         ∧ ioutil_ReadFile env (dirPath +:+ "/" +:+ name) = Ok out
         ∧ ast_ParseModule env name (string_of_list_byte out) = Ok m).
Proof.
  revert ms0. induction files as [|file files IH]; intros ms0;
    cbn [pkg.readPolicies_loop].
  - intros [= <-] Hm. by left.
  - destruct (strings_HasSuffix (os.Name file) ".rego") eqn:Hsuf;
      cbn [negb].
    + destruct (ioutil_ReadFile env (dirPath +:+ "/" +:+ os.Name file))
        as [out|] eqn:Hread; [|done].
      destruct (ast_ParseModule env (os.Name file) (string_of_list_byte out))
        as [parsed|] eqn:Hparse; [|done].
      intros Hloop Hm.
      destruct (IH _ Hloop Hm) as [Hins|(? & f & o & ? & ? & ? & ?)].
      * rewrite lookup_insert in Hins. case_decide as Hn; [|by left].
        injection Hins as <-. subst name. right. split; [done|].
        exists file, out. split_and!; [left|done|done|done].
      * right. split; [done|]. exists f, o. split_and!; [by right|done..].
    + intros Hloop Hm.
      destruct (IH _ Hloop Hm) as [?|(? & f & o & ? & ? & ? & ?)]; [by left|].
      right. split; [done|]. exists f, o. split_and!; [by right|done..].
Qed.

(** C6, amended. The suffix filter of [readPolicies] applies to a single
    file and to the entries of a directory alike. A path that is a file
    whose name does not end in [.rego] yields the empty set of modules,
    whatever reading or parsing the file would give; a file whose name
    ends in [.rego] is read and parsed and is the only module. For a
    directory, every module comes from an entry whose name ends in
    [.rego]. *)
Theorem readPolicies_filters_by_suffix (pPath : string) (info : os.FileInfo) :
  os_Stat env pPath = Ok info →
  (os.IsDir info = false →
   strings_HasSuffix (os.Name info) ".rego" = false →
   pkg.readPolicies env pPath = Ok ∅)
  ∧ (os.IsDir info = false →
     strings_HasSuffix (os.Name info) ".rego" = true →
     ∀ out parsed,
       ioutil_ReadFile env (filepath_Dir env pPath +:+ "/" +:+ os.Name info)
       = Ok out →
       ast_ParseModule env (os.Name info) (string_of_list_byte out)
       = Ok parsed →
       pkg.readPolicies env pPath = Ok {[ os.Name info := parsed ]})
  ∧ (os.IsDir info = true →
     ∀ ms name m,
       pkg.readPolicies env pPath = Ok ms → ms !! name = Some m →
       strings_HasSuffix name ".rego" = true
       ∧ ∃ files file out,
           ioutil_ReadDir env pPath = Ok files
           ∧ file ∈ files ∧ os.Name file = name
           ∧ ioutil_ReadFile env (pPath +:+ "/" +:+ name) = Ok out
           ∧ ast_ParseModule env name (string_of_list_byte out) = Ok m).
Proof.
  intros Hstat. unfold pkg.readPolicies. rewrite Hstat. split_and!.
  - intros -> Hsuf. cbn [pkg.readPolicies_loop]. by rewrite Hsuf.
  - intros -> Hsuf out parsed Hread Hparse. cbn [pkg.readPolicies_loop].
    by rewrite Hsuf, Hread, Hparse.
  - intros -> ms name m.
    destruct (ioutil_ReadDir env pPath) as [files|] eqn:Hdir; [|done].
    intros Hloop Hm.
    destruct (readPolicies_loop_lookup _ _ _ _ _ _ Hloop Hm)
      as [Hemp|(Hsuf & file & out & ? & ? & ? & ?)].
    + by rewrite lookup_empty in Hemp.
    + split; [done|]. by exists files, file, out.
Qed.
End Policies.

(** C6, as stated, fails: the path [policy.txt] is a single file that
    parses to a module with the rule [deny_b], yet [readPolicies] yields
    no module, and [Build] succeeds with an empty rule-set. *)
Lemma readPolicies_single_file_counterexample :
  let env :=
    Fixture.world [("main.rego", ["deny_a"])] [("policy.txt", ["deny_b"])]
                  [] Fixture.quiet in
  os_Stat env "policy.txt"
  = Ok {| os.Name := "policy.txt"; os.IsDir := false |}
  ∧ ioutil_ReadFile env "./policy.txt" = Ok []
  ∧ ast_ParseModule env "policy.txt" (string_of_list_byte [])
    = Ok (Fixture.module ["deny_b"])
  ∧ pkg.readPolicies env "policy.txt" = Ok ∅
  ∧ pkg.readPolicies env "policy.txt"
    ≠ Ok {[ "policy.txt" := Fixture.module ["deny_b"] ]}
  ∧ pkg.Build env (pkg.NewCompiler "policy.txt")
    = ({| pkg.Compiler_ := Some {| ast.Modules := ∅; ast.Errors := None |};
          pkg.Compiler_policyDir := "policy.txt" |}, None).
Proof.
  split_and!; try (vm_compute; reflexivity).
  intros H. apply (f_equal (λ r, match r with
                                  | Ok ms => ms !! "policy.txt"
                                  | Err _ => None
                                  end)) in H.
  vm_compute in H. discriminate.
Qed.

(** An instance: the single files [policy.txt] and [more.rego]. *)
Lemma readPolicies_filters_by_suffix_witness :
  let env :=
    Fixture.world [("main.rego", ["deny_a"])]
                  [("policy.txt", ["deny_b"]); ("more.rego", ["deny_c"])]
                  [] Fixture.quiet in
  pkg.readPolicies env "policy.txt" = Ok ∅
  ∧ pkg.readPolicies env "more.rego"
    = Ok {[ "more.rego" := Fixture.module ["deny_c"] ]}.
Proof.
  intros env. split.
  - apply (readPolicies_filters_by_suffix env "policy.txt"
             {| os.Name := "policy.txt"; os.IsDir := false |});
      reflexivity.
  - apply (readPolicies_filters_by_suffix env "more.rego"
             {| os.Name := "more.rego"; os.IsDir := false |}) with [];
      reflexivity.
Defined.


(** * Further properties of the code *)

(** ** What [runQuery] returns *)

Lemma errors_of_snoc msgs m :
  multierr_Append (errors_of msgs) (Some (errors_New m))
  = errors_of (msgs ++ [m]).
Proof.
  destruct msgs as [|a [|b msgs]]; [done..|].
  cbn [app errors_of multierr_Append multierr_members].
  change (errors_New m) with (errorString m).
  destruct (msgs ++ [m]) as [|c r] eqn:E; [by destruct msgs|].
  rewrite <- E. do 2 f_equal.
  change (a :: b :: msgs ++ [m]) with ((a :: b :: msgs) ++ [m]).
  by rewrite map_app.
Qed.

Lemma append_values_strings vs msgs :
  Forall (λ v, is_Some (as_string v)) vs →
  pkg.append_values vs (errors_of msgs)
  = Done (errors_of (msgs ++ omap as_string vs)).
Proof.
  intros HF. revert msgs.
  induction HF as [|v vs [s Hs] _ IH]; intros msgs; cbn [pkg.append_values omap].
  - by rewrite app_nil_r.
  - destruct v; try done. injection Hs as ->. cbn [as_string].
    rewrite errors_of_snoc, IH. by rewrite <- app_assoc.
Qed.

Lemma append_expressions_strings es msgs :
  Forall (λ v, is_Some (as_string v))
         (es ≫= λ e, match rego.Value e with VArray vs => vs | _ => [] end) →
  pkg.append_expressions es (errors_of msgs)
  = Done (errors_of
            (msgs ++ omap as_string
               (es ≫= λ e, match rego.Value e with
                           | VArray vs => vs
                           | _ => []
                           end))).
Proof.
  revert msgs. induction es as [|e es IH]; intros msgs HF;
    cbn [pkg.append_expressions].
  - by rewrite app_nil_r.
  - rewrite bind_cons in HF. apply Forall_app in HF as [HFe HF].
    rewrite bind_cons, omap_app, app_assoc.
    destruct (rego.Value e) as [| | | |vs|]; cbn [pkg.hasResults];
      rewrite ?app_nil_r; try by apply IH.
    destruct vs as [|v vs]; [rewrite app_nil_r; by apply IH|].
    cbn [length Nat.ltb Nat.leb].
    rewrite (append_values_strings _ _ HFe). by apply IH.
Qed.

Lemma append_results_strings rr msgs :
  Forall (λ v, is_Some (as_string v)) (bindings rr) →
  pkg.append_results rr (errors_of msgs)
  = Done (errors_of (msgs ++ messages rr)).
Proof.
  unfold messages, bindings. revert msgs.
  induction rr as [|r rr IH]; intros msgs HF; cbn [pkg.append_results].
  - by rewrite app_nil_r.
  - rewrite bind_cons in HF. apply Forall_app in HF as [HFr HF].
    rewrite bind_cons, omap_app, app_assoc.
    rewrite (append_expressions_strings _ _ HFr). by apply IH.
Qed.

Lemma Error_errors_of msgs :
  msgs ≠ [] → fmt_s (errors_of msgs) = strings_Join msgs "; ".
Proof.
  destruct msgs as [|a [|b msgs]]; [done..|]. intros _.
  cbn [errors_of fmt_s Error]. by rewrite <- list_fmap_compose, list_fmap_id.
Qed.

Section Messages.
Context (env : Env).

(** X1. When the engine answers a query and every element of every list
    value is a string, [runQuery] returns one error for the whole query:
    [nil] when there is no message, the message when there is one, and a
    flat multi-error of all messages in reading order otherwise, whose
    text is the messages joined by a semicolon and a space. *)
Theorem runQuery_collects_messages (query : string) (input : value)
    (compiler : option ast.Compiler) (pq : rego.PreparedEvalQuery)
    (rr : rego.ResultSet) :
  rego_PrepareForEval env
    {| rego.Query := query; rego.Compiler := compiler; rego.Input := input |}
  = Ok pq →
  rego_Eval env pq = Ok rr →
  Forall (λ v, is_Some (as_string v)) (bindings rr) →
  out (pkg.runQuery env query input compiler) = Done (errors_of (messages rr))
  ∧ (errors_of (messages rr) = None ↔ messages rr = [])
  ∧ (messages rr ≠ [] →
     fmt_s (errors_of (messages rr)) = strings_Join (messages rr) "; ").
Proof.
  intros Hprep Heval HF. split_and!.
  - unfold pkg.runQuery, pkg.Query_Build. rewrite out_bind.
    cbn [emit out]. rewrite Hprep, Heval. cbn [lift out].
    exact (append_results_strings rr [] HF).
  - by destruct (messages rr) as [|a [|b l]].
  - apply Error_errors_of.
Qed.

(** X2. [runQuery] panics in exactly one situation: the engine prepared
    and evaluated the query, and some list value of the results holds an
    element that is not a string. Engine errors never make it panic. *)
Theorem runQuery_panics_iff (query : string) (input : value)
    (compiler : option ast.Compiler) :
  out (pkg.runQuery env query input compiler) = Panicked
  ↔ ∃ pq rr v,
      rego_PrepareForEval env
        {| rego.Query := query; rego.Compiler := compiler;
           rego.Input := input |} = Ok pq
      ∧ rego_Eval env pq = Ok rr
      ∧ v ∈ bindings rr ∧ as_string v = None.
Proof.
  split.
  - unfold pkg.runQuery, pkg.Query_Build. rewrite out_bind. cbn [emit out].
    destruct (rego_PrepareForEval env _) as [pq|] eqn:Hprep; [|done].
    destruct (rego_Eval env pq) as [rr|] eqn:Heval; [|done].
    cbn [lift out]. intros Hpanic.
    destruct (decide (Forall (λ v, is_Some (as_string v)) (bindings rr)))
      as [HF|HF].
    + pose proof (append_results_strings rr [] HF) as HD.
      cbn [errors_of] in HD. by rewrite HD in Hpanic.
    + apply not_Forall_Exists in HF; [|apply _].
      apply Exists_exists in HF as (v & Hv & Hn).
      exists pq, rr, v. split_and!; [done..|].
      destruct (as_string v) eqn:E; [|done]. by destruct Hn.
  - intros (pq & rr & v & Hprep & Heval & Hv & Hn).
    unfold bindings in Hv.
    apply list_elem_of_bind in Hv as (r & Hv & Hr).
    apply list_elem_of_bind in Hv as (e & Hv & He).
    destruct (rego.Value e) as [| | | |vs|] eqn:Hval;
      try by apply elem_of_nil in Hv.
    apply (runQuery_not_string env query input compiler pq rr r e vs v);
      try done.
    intros s ->. done.
Qed.
End Messages.

(** ** What [processFile] returns *)

Section Entries.
Context (env : Env).

Lemma run_queries_entries ns queries input compiler acc acc' :
  out (pkg.run_queries env ns queries input compiler acc) = Done acc' →
  ∃ es, acc' = acc ++ es
        ∧ Forall2 (returned env ns compiler) es (pair input <$> queries).
Proof.
  revert acc. induction queries as [|q queries IH]; intros acc;
    cbn [pkg.run_queries fmap list_fmap].
  - intros [= <-]. exists []. by rewrite app_nil_r.
  - bind_cases (pkg.runQuery env ("data." +:+ ns +:+ "." +:+ q) input compiler)
               e E; [|done].
    intros Hd. destruct (IH _ Hd) as (es & -> & HF).
    exists (e :: es). split; [by rewrite <- app_assoc|]. by constructor.
Qed.

Lemma process_parts_entries p ns fQ wQ compiler parts fails warns fs ws :
  out (pkg.process_parts env p ns fQ wQ compiler parts fails warns)
  = Done (fs, ws, None) →
  ∃ inputs fes wes,
    Forall2 (λ part input, p part = Ok input) parts inputs
    ∧ fs = fails ++ fes ∧ ws = warns ++ wes
    ∧ Forall2 (returned env ns compiler) fes (inputs ≫= λ i, pair i <$> fQ)
    ∧ Forall2 (returned env ns compiler) wes (inputs ≫= λ i, pair i <$> wQ).
Proof.
  revert fails warns. induction parts as [|part parts IH]; intros fails warns;
    cbn [pkg.process_parts].
  - intros [= <- <-]. exists [], [], [].
    rewrite !app_nil_r. split_and!; by try constructor.
  - destruct (p part) as [input|err] eqn:Hp; [|done].
    bind_cases (pkg.run_queries env ns fQ input compiler fails) fails' Ef;
      [|done].
    bind_cases (pkg.run_queries env ns wQ input compiler warns) warns' Ew;
      [|done].
    intros Hd.
    destruct (IH _ _ Hd) as (inputs & fes & wes & HF & -> & -> & Hfes & Hwes).
    apply run_queries_entries in Ef as (fe & -> & Hfe).
    apply run_queries_entries in Ew as (we & -> & Hwe).
    exists (input :: inputs), (fe ++ fes), (we ++ wes).
    rewrite !bind_cons, <- !app_assoc.
    split_and!; [by constructor|done|done|by apply Forall2_app..].
Qed.

Lemma process_parts_error p ns fQ wQ compiler parts fails warns fs ws err :
  out (pkg.process_parts env p ns fQ wQ compiler parts fails warns)
  = Done (fs, ws, Some err) →
  fs = [] ∧ ws = []
  ∧ ∃ pre part post inputs,
      parts = pre ++ part :: post
      ∧ Forall2 (λ part input, p part = Ok input) pre inputs
      ∧ p part = Err err
      ∧ trace (pkg.process_parts env p ns fQ wQ compiler parts fails warns)
        = inputs ≫= queries_for ns fQ wQ.
Proof.
  revert fails warns. induction parts as [|part parts IH]; intros fails warns;
    cbn [pkg.process_parts]; [done|].
  destruct (p part) as [input|err0] eqn:Hp.
  - bind_cases (pkg.run_queries env ns fQ input compiler fails) fails' Ef;
      [|done].
    bind_cases (pkg.run_queries env ns wQ input compiler warns) warns' Ew;
      [|done].
    intros Hd.
    destruct (IH _ _ Hd)
      as (-> & -> & pre & part' & post & inputs & -> & HF & Hp' & Htr).
    split_and!; [done..|].
    exists (part :: pre), part', post, (input :: inputs).
    split_and!; [done|by constructor|done|].
    apply run_queries_Done in Ef as [-> _].
    apply run_queries_Done in Ew as [-> _].
    rewrite Htr, bind_cons. unfold queries_for.
    by rewrite map_app, <- app_assoc.
  - intros [= <- <- <-]. split_and!; [done..|].
    exists [], part, parts, []. split_and!; [done|constructor|done|done].
Qed.

(** X3. When the processing of a file completes, the failures list holds
    exactly the values [runQuery] returned, [nil] included, for the first
    part and each denial name in turn, then for the second part, and so
    on; the warnings list holds the same for the warning names. *)
Theorem processFile_entries (sched : pkg.schedule) (ns fileName : string)
    (parts : list (list byte)) (a : ast.Compiler)
    (fs ws : list (option error)) :
  let qs :=
    pkg.classify (pkg.order_Modules sched fileName (ast.Modules a)).*2 in
  out (pkg.processFile env sched ns fileName parts (Some a))
  = Done (fs, ws, None) →
  ∃ inputs,
    Forall2 (λ part input,
               parsers.parseYAML (yaml_Unmarshal env) part = Ok input)
            parts inputs
    ∧ Forall2 (returned env ns (Some a)) fs (inputs ≫= λ i, pair i <$> qs.1)
    ∧ Forall2 (returned env ns (Some a)) ws (inputs ≫= λ i, pair i <$> qs.2).
Proof.
  intros qs Hm. unfold pkg.processFile in Hm.
  destruct (parsers.Get (yaml_Unmarshal env) fileName) as [p|] eqn:HG;
    [|done].
  assert (p = parsers.parseYAML (yaml_Unmarshal env)) as ->.
  { unfold parsers.Get in HG. by case_match; simplify_eq. }
  destruct (process_parts_entries _ _ _ _ _ _ _ _ _ _ Hm)
    as (inputs & fes & wes & HF & -> & -> & Hfes & Hwes).
  by exists inputs.
Qed.

(** X4. [processFile] returns an error in two cases only: no decoder for
    the file name, before any query is dispatched; or a part that cannot
    be decoded, in which case the error is the wrapped decoder error of
    the first such part, all parts before it have been sent to every
    query, and what they produced is dropped. Errors of the engine are
    never returned as the error of the file. *)
Theorem processFile_error_origin (sched : pkg.schedule) (ns fileName : string)
    (parts : list (list byte)) (compiler : option ast.Compiler)
    (fs ws : list (option error)) (err : error) :
  out (pkg.processFile env sched ns fileName parts compiler)
  = Done (fs, ws, Some err) →
  fs = [] ∧ ws = []
  ∧ ((parsers.Get (yaml_Unmarshal env) fileName = Err err
      ∧ trace (pkg.processFile env sched ns fileName parts compiler) = [])
     ∨ ∃ a pre part post inputs e,
         compiler = Some a
         ∧ parts = pre ++ part :: post
         ∧ Forall2 (λ part input,
                      parsers.parseYAML (yaml_Unmarshal env) part = Ok input)
                   pre inputs
         ∧ yaml_Unmarshal env part = Err e
         ∧ err = errors_New ("unable to parse yaml: " +:+ Error e)
         ∧ trace (pkg.processFile env sched ns fileName parts compiler)
           = inputs ≫= queries_for ns
               (pkg.classify
                  (pkg.order_Modules sched fileName (ast.Modules a)).*2).1
               (pkg.classify
                  (pkg.order_Modules sched fileName (ast.Modules a)).*2).2).
Proof.
  unfold pkg.processFile.
  destruct (parsers.Get (yaml_Unmarshal env) fileName) as [p|e0] eqn:HG.
  - assert (p = parsers.parseYAML (yaml_Unmarshal env)) as ->.
    { unfold parsers.Get in HG. by case_match; simplify_eq. }
    destruct compiler as [a|]; [|done]. intros Hm.
    destruct (process_parts_error _ _ _ _ _ _ _ _ _ _ _ Hm)
      as (-> & -> & pre & part & post & inputs & -> & HF & Hp & Htr).
    split_and!; [done..|]. right.
    unfold parsers.parseYAML in Hp at 1.
    destruct (yaml_Unmarshal env part) as [|e] eqn:Hy; [done|].
    injection Hp as <-.
    exists a, pre, part, post, inputs, e. by split_and!.
  - intros [= <- <- <-]. split_and!; [done..|]. by left.
Qed.
End Entries.

(** ** What [Run] returns *)

Section Running.
Context (env : Env).

Lemma Run_loop_error sched c compiler cfs res cr e :
  out (pkg.Run_loop env sched c compiler cfs res) = Done (cr, Some e) →
  cr = ∅
  ∧ ∃ name parts fs ws e',
      (name, parts) ∈ cfs
      ∧ out (pkg.processFile env sched (pkg.namespace c) name parts compiler)
        = Done (fs, ws, Some e')
      ∧ e = errors_New ("error processiong file: " +:+ Error e').
Proof.
  revert res. induction cfs as [|[n ps] cfs IH]; intros res;
    cbn [pkg.Run_loop]; [done|].
  bind_cases (pkg.processFile env sched (pkg.namespace c) n ps compiler) r E;
    [|done].
  destruct r as [[fs ws] [e'|]].
  - intros [= <- <-]. split; [done|].
    exists n, ps, fs, ws, e'. split_and!; [left|done|done].
  - intros Hd. destruct (IH _ Hd) as (-> & name & parts & ? & ? & ? & ? & ? & ?).
    split; [done|]. eexists name, parts, _, _, _. split_and!; [by right|done..].
Qed.

Lemma Run_loop_entries sched c compiler cfs res cr :
  NoDup (cfs.*1) →
  out (pkg.Run_loop env sched c compiler cfs res) = Done (cr, None) →
  ∀ name r,
    cr !! name = Some r
    ↔ ((name ∉ fst <$> cfs) ∧ res !! name = Some r)
      ∨ ∃ parts, (name, parts) ∈ cfs
                 ∧ file_result env sched (pkg.namespace c) compiler name parts
                   = Some r.
Proof.
  revert res. induction cfs as [|[n ps] cfs IH]; intros res Hnd;
    cbn [pkg.Run_loop].
  - intros [= <-] name r. split.
    + intros ?. left. split; [apply not_elem_of_nil|done].
    + intros [[_ ?]|(? & []%elem_of_nil & _)]. done.
  - apply NoDup_cons in Hnd as [Hn Hnd].
    bind_cases (pkg.processFile env sched (pkg.namespace c) n ps compiler) r0 E;
      [|done].
    destruct r0 as [[fs ws] [e'|]]; [done|]. intros Hd name r.
    rewrite (IH _ Hnd Hd name r). cbn [fmap list_fmap fst].
    rewrite not_elem_of_cons, lookup_insert.
    assert (file_result env sched (pkg.namespace c) compiler n ps
            = Some {| pkg.Failures := fs; pkg.Warnings := ws |}) as Hres.
    { unfold file_result. by rewrite E. }
    split.
    + intros [[Hnot Hl]|(parts & Hin & Hr)].
      * case_decide as Hname.
        -- subst name. injection Hl as <-. right. exists ps. split; [left|done].
        -- left. by split_and!.
      * right. exists parts. split; [by right|done].
    + intros [[[Hne Hnot] Hl]|(parts & Hin & Hr)].
      * left. split; [done|]. by rewrite decide_False.
      * apply elem_of_cons in Hin as [[= -> ->]|Hin].
        -- left. split; [done|]. rewrite decide_True by done. congruence.
        -- right. by exists parts.
Qed.

Lemma Run_loop_all_complete sched c compiler cfs res cr :
  out (pkg.Run_loop env sched c compiler cfs res) = Done (cr, None) →
  Forall (λ f, is_Some (file_result env sched (pkg.namespace c) compiler
                          f.1 f.2)) cfs.
Proof.
  revert res. induction cfs as [|[n ps] cfs IH]; intros res;
    cbn [pkg.Run_loop]; [by constructor|].
  bind_cases (pkg.processFile env sched (pkg.namespace c) n ps compiler) r0 E;
    [|done].
  destruct r0 as [[fs ws] [e'|]]; [done|]. intros Hd.
  constructor; [|by eapply IH].
  unfold file_result. cbn [fst snd]. by rewrite E.
Qed.

Lemma Run_loop_complete sched c compiler cfs res :
  Forall (λ f, is_Some (file_result env sched (pkg.namespace c) compiler
                          f.1 f.2)) cfs →
  ∃ cr, out (pkg.Run_loop env sched c compiler cfs res) = Done (cr, None).
Proof.
  intros HF. revert res.
  induction HF as [|[n ps] cfs [r Hr] _ IH]; intros res; cbn [pkg.Run_loop].
  - by exists res.
  - unfold file_result in Hr. cbn [fst snd] in Hr. rewrite out_bind.
    destruct (out (pkg.processFile env sched (pkg.namespace c) n ps compiler))
      as [[[fs ws] [e|]]|]; [done| |done].
    cbv beta iota. apply IH.
Qed.

Lemma visited_configs sched (cfs : gmap string (list (list byte))) :
  pkg.visits_all sched →
  NoDup ((pkg.order_configs sched cfs).*1)
  ∧ ∀ name parts,
      (name, parts) ∈ pkg.order_configs sched cfs ↔ cfs !! name = Some parts.
Proof.
  intros (_ & Hcfg & _). split.
  - rewrite (Hcfg cfs). apply NoDup_fst_map_to_list.
  - intros name parts. rewrite (Hcfg cfs). apply elem_of_map_to_list.
Qed.

(** X5. Whenever [Run] returns an error it returns the empty result map
    with it. The error is the wrapped error of [Build], or of
    [loadConfigs], in both of which cases no query was dispatched, or the
    wrapped error of [processFile] for one of the loaded files. *)
Theorem Run_error_origin (sched : pkg.schedule) (c : pkg.ConfChecker)
    (cr : pkg.CheckResults) (e : error) :
  out (pkg.Run env sched c) = Done (cr, Some e) →
  cr = ∅
  ∧ ((∃ compiler e',
        pkg.Build env (pkg.NewCompiler (pkg.policyDir c))
        = (compiler, Some e')
        ∧ e = errors_New ("error loading rules: " +:+ Error e')
        ∧ trace (pkg.Run env sched c) = [])
     ∨ (∃ compiler e',
          pkg.Build env (pkg.NewCompiler (pkg.policyDir c)) = (compiler, None)
          ∧ pkg.loadConfigs env (pkg.configs c) = Err e'
          ∧ e = errors_New ("error loading configs: " +:+ Error e')
          ∧ trace (pkg.Run env sched c) = [])
     ∨ (∃ compiler cfs name parts fs ws e',
          pkg.Build env (pkg.NewCompiler (pkg.policyDir c)) = (compiler, None)
          ∧ pkg.loadConfigs env (pkg.configs c) = Ok cfs
          ∧ (name, parts) ∈ pkg.order_configs sched cfs
          ∧ out (pkg.processFile env sched (pkg.namespace c) name parts
                   (pkg.Compiler_ compiler))
            = Done (fs, ws, Some e')
          ∧ e = errors_New ("error processiong file: " +:+ Error e'))).
Proof.
  unfold pkg.Run.
  destruct (pkg.Build env (pkg.NewCompiler (pkg.policyDir c)))
    as [compiler [e'|]] eqn:HB.
  - intros [= <- <-]. split; [done|]. left. by exists compiler, e'.
  - destruct (pkg.loadConfigs env (pkg.configs c)) as [cfs|e'] eqn:HL.
    + intros Hd. apply Run_loop_error in Hd
        as (-> & name & parts & fs & ws & e' & Hin & Hp & ->).
      split; [done|]. right. right.
      by exists compiler, cfs, name, parts, fs, ws, e'.
    + intros [= <- <-]. split; [done|]. right. left. by exists compiler, e'.
Qed.

Lemma Run_success (sched : pkg.schedule) (c : pkg.ConfChecker)
    (cr : pkg.CheckResults) :
  pkg.visits_all sched →
  out (pkg.Run env sched c) = Done (cr, None) →
  ∃ compiler cfs,
    pkg.Build env (pkg.NewCompiler (pkg.policyDir c)) = (compiler, None)
    ∧ pkg.loadConfigs env (pkg.configs c) = Ok cfs
    ∧ cr = map_imap (file_result env sched (pkg.namespace c)
                       (pkg.Compiler_ compiler)) cfs
    ∧ dom cr = dom cfs.
Proof.
  intros Hsched. unfold pkg.Run.
  destruct (pkg.Build env (pkg.NewCompiler (pkg.policyDir c)))
    as [compiler [e'|]] eqn:HB; [done|].
  destruct (pkg.loadConfigs env (pkg.configs c)) as [cfs|e'] eqn:HL; [|done].
  intros Hd. exists compiler, cfs.
  destruct (visited_configs sched cfs Hsched) as [Hnd Hin].
  pose proof (Run_loop_entries _ _ _ _ _ _ Hnd Hd) as Hcr.
  pose proof (Run_loop_all_complete _ _ _ _ _ _ Hd) as Hall.
  assert (cr = map_imap (file_result env sched (pkg.namespace c)
                           (pkg.Compiler_ compiler)) cfs) as Heq.
  { apply map_eq. intros name. apply option_eq. intros r.
    rewrite (Hcr name r), map_lookup_imap, bind_Some, lookup_empty.
    split.
    - intros [[_ ?]|(parts & Hp & Hr)]; [done|].
      exists parts. by rewrite <- Hin.
    - intros (parts & Hp & Hr). right. exists parts. by rewrite Hin. }
  split_and!; [done..|].
  apply set_eq. intros name. rewrite !elem_of_dom, Heq, map_lookup_imap.
  split.
  - intros [r Hr]. apply bind_Some in Hr as (parts & -> & _). by eexists.
  - intros [parts Hp]. rewrite Hp. cbn [mbind option_bind].
    rewrite Forall_forall in Hall.
    apply (Hall (name, parts)). by apply Hin.
Qed.

(** X6. When [Run] succeeds, the result map has exactly one entry per
    loaded file, keyed by its absolute path, and the entry of a file is
    what [processFile] produced for it. *)
Theorem Run_result_map (sched : pkg.schedule) (c : pkg.ConfChecker)
    (cr : pkg.CheckResults) :
  pkg.visits_all sched →
  out (pkg.Run env sched c) = Done (cr, None) →
  ∃ compiler cfs,
    pkg.Build env (pkg.NewCompiler (pkg.policyDir c)) = (compiler, None)
    ∧ pkg.loadConfigs env (pkg.configs c) = Ok cfs
    ∧ cr = map_imap (file_result env sched (pkg.namespace c)
                       (pkg.Compiler_ compiler)) cfs
    ∧ dom cr = dom cfs.
Proof. apply Run_success. Qed.

(** X7. The result map of a successful [Run] does not depend on the
    order in which the loaded files are visited: with the modules visited
    in the same order, any other visiting order of the files succeeds as
    well and gives the same map. *)
Theorem Run_any_file_order (sched1 sched2 : pkg.schedule)
    (c : pkg.ConfChecker) (cr : pkg.CheckResults) :
  pkg.visits_all sched1 → pkg.visits_all sched2 →
  (∀ f m, pkg.order_Modules sched1 f m = pkg.order_Modules sched2 f m) →
  out (pkg.Run env sched1 c) = Done (cr, None) →
  out (pkg.Run env sched2 c) = Done (cr, None).
Proof.
  intros H1 H2 Hmod HR.
  destruct (Run_success sched1 c cr H1 HR)
    as (compiler & cfs & HB & HL & Hcr & _).
  assert (∀ name parts,
            file_result env sched1 (pkg.namespace c) (pkg.Compiler_ compiler)
                        name parts
            = file_result env sched2 (pkg.namespace c) (pkg.Compiler_ compiler)
                          name parts) as Hres.
  { intros name parts. unfold file_result, pkg.processFile.
    destruct (parsers.Get _ _); [|done].
    destruct (pkg.Compiler_ compiler); [|done]. by rewrite Hmod. }
  assert (∃ cr', out (pkg.Run env sched2 c) = Done (cr', None)) as [cr' HR'].
  { unfold pkg.Run in HR |- *. rewrite HB, HL in HR |- *.
    apply Run_loop_complete. apply Forall_forall. intros [name parts] Hin.
    apply (visited_configs sched2 cfs H2) in Hin.
    apply (visited_configs sched1 cfs H1) in Hin.
    pose proof (Run_loop_all_complete _ _ _ _ _ _ HR) as Hall.
    rewrite Forall_forall in Hall. cbn [fst snd]. rewrite <- Hres.
    by apply (Hall (name, parts)). }
  destruct (Run_success sched2 c cr' H2 HR')
    as (compiler' & cfs' & HB' & HL' & Hcr' & _).
  rewrite HB in HB'. injection HB' as <-.
  rewrite HL in HL'. injection HL' as <-.
  rewrite HR', Hcr, Hcr'. do 2 f_equal.
  apply map_eq. intros name. rewrite !map_lookup_imap.
  destruct (cfs !! name); [symmetry; apply Hres|done].
Qed.

Lemma processFile_calls sched ns fileName parts a fs ws :
  out (pkg.processFile env sched ns fileName parts (Some a))
  = Done (fs, ws, None) →
  length (trace (pkg.processFile env sched ns fileName parts (Some a)))
  = length parts
    * (length (pkg.classify
                 (pkg.order_Modules sched fileName (ast.Modules a)).*2).1
       + length (pkg.classify
                   (pkg.order_Modules sched fileName (ast.Modules a)).*2).2).
Proof.
  unfold pkg.processFile.
  destruct (parsers.Get (yaml_Unmarshal env) fileName) as [p|]; [|done].
  intros Hm.
  destruct (process_parts_Done _ _ _ _ _ _ _ _ _ _ _ Hm)
    as (inputs & HF & -> & _).
  by rewrite queries_for_length, (Forall2_length _ _ _ HF).
Qed.

Lemma classify_lengths (l1 l2 : list (string * ast.Module)) :
  l1 ≡ₚ l2 →
  length (pkg.classify l1.*2).1 + length (pkg.classify l1.*2).2
  = length (pkg.classify l2.*2).1 + length (pkg.classify l2.*2).2.
Proof. intros Hp. rewrite !classify_spec. cbn [fst snd]. by rewrite Hp. Qed.

Lemma Run_loop_calls sched c a cfs res cr nm :
  (∀ f, length (pkg.classify
                  (pkg.order_Modules sched f (ast.Modules a)).*2).1
        + length (pkg.classify
                    (pkg.order_Modules sched f (ast.Modules a)).*2).2 = nm) →
  out (pkg.Run_loop env sched c (Some a) cfs res) = Done (cr, None) →
  length (trace (pkg.Run_loop env sched c (Some a) cfs res))
  = sum_list_with (λ f, length f.2) cfs * nm.
Proof.
  intros Hnm. revert res. induction cfs as [|[n ps] cfs IH]; intros res;
    cbn [pkg.Run_loop sum_list_with]; [done|].
  pose proof (processFile_calls sched (pkg.namespace c) n ps a) as Hcalls.
  bind_cases (pkg.processFile env sched (pkg.namespace c) n ps (Some a)) r0 E;
    [|done].
  destruct r0 as [[fs ws] [e'|]]; [done|]. intros Hd.
  rewrite length_app, (IH _ Hd), (Hcalls fs ws eq_refl), Hnm. cbn [snd]. lia.
Qed.

(** X8. In a successful [Run] the dispatcher is called once for every
    document part of every loaded file and every classified rule name:
    the number of calls is the total number of parts times the number of
    denial and warning names, whatever the visiting orders. *)
Theorem Run_calls (sched : pkg.schedule) (c : pkg.ConfChecker)
    (cr : pkg.CheckResults) :
  pkg.visits_all sched →
  out (pkg.Run env sched c) = Done (cr, None) →
  ∃ compiler a cfs,
    pkg.Build env (pkg.NewCompiler (pkg.policyDir c)) = (compiler, None)
    ∧ pkg.Compiler_ compiler = Some a
    ∧ pkg.loadConfigs env (pkg.configs c) = Ok cfs
    ∧ length (trace (pkg.Run env sched c))
      = total_parts cfs
        * (length (pkg.classify (map_to_list (ast.Modules a)).*2).1
           + length (pkg.classify (map_to_list (ast.Modules a)).*2).2).
Proof.
  intros Hsched HR. pose proof Hsched as (Hmod & Hcfg & _).
  unfold pkg.Run in *.
  destruct (pkg.Build env (pkg.NewCompiler (pkg.policyDir c)))
    as [compiler [e'|]] eqn:HB; [done|].
  destruct (Build_ok env _ _ HB) as [a Ha].
  destruct (pkg.loadConfigs env (pkg.configs c)) as [cfs|e'] eqn:HL; [|done].
  exists compiler, a, cfs. split_and!; [done..|].
  rewrite Ha in *.
  rewrite (Run_loop_calls sched c a _ _ cr
             (length (pkg.classify (map_to_list (ast.Modules a)).*2).1
              + length (pkg.classify (map_to_list (ast.Modules a)).*2).2)).
  - unfold total_parts. by rewrite (Hcfg cfs).
  - intros f. apply classify_lengths, Hmod.
  - done.
Qed.
End Running.

(** ** Loading the config files *)

Section LoadingConfigs.
Context (env : Env).

Lemma loadConfigs_loop_keys files res cfs :
  pkg.loadConfigs_loop env files res = Ok cfs →
  (∀ p, p ∈ dom cfs
        ↔ p ∈ dom res ∨ ∃ f, f ∈ files ∧ filepath_Abs env f = Ok p)
  ∧ size cfs ≤ size res + length files.
Proof.
  revert res. induction files as [|g files IH]; intros res;
    cbn [pkg.loadConfigs_loop length].
  - intros [= <-]. split; [|lia]. intros p. split; [by left|].
    intros [?|(? & []%elem_of_nil & _)]. done.
  - destruct (filepath_Abs env g) as [filePath|] eqn:Habs; [|done].
    destruct (ioutil_ReadFile env filePath) as [data|]; [|done].
    intros Hl. destruct (IH _ Hl) as [Hdom Hsize]. split.
    + intros p. rewrite (Hdom p), dom_insert_L, elem_of_union,
        elem_of_singleton. split.
      * intros [[->|?]|(f & Hf & Hp)].
        -- right. exists g. split; [left|done].
        -- by left.
        -- right. exists f. split; [by right|done].
      * intros [?|(f & Hf & Hp)]; [by left; right|].
        apply elem_of_cons in Hf as [->|Hf].
        -- left. left. congruence.
        -- right. by exists f.
    + destruct (res !! filePath) eqn:Hr.
      * rewrite map_size_insert_Some in Hsize by done. lia.
      * rewrite map_size_insert_None in Hsize by done. lia.
Qed.

(** X9. The loaded configs are keyed by absolute path: a path is a key
    exactly when some given file name resolves to it, so file names that
    resolve to the same path share one entry, and there are at most as
    many entries as file names. *)
Theorem loadConfigs_keys (files : list string)
    (cfs : gmap string (list (list byte))) :
  pkg.loadConfigs env files = Ok cfs →
  (∀ p, p ∈ dom cfs ↔ ∃ f, f ∈ files ∧ filepath_Abs env f = Ok p)
  ∧ size cfs ≤ length files.
Proof.
  intros Hl. destruct (loadConfigs_loop_keys files ∅ cfs Hl) as [Hdom Hsize].
  rewrite map_size_empty in Hsize. split; [|done].
  intros p. rewrite (Hdom p), dom_empty_L, elem_of_empty.
  split; [by intros [[]|?]|by right].
Qed.

Lemma loadConfigs_loop_Ok files res :
  Forall (readable env) files →
  ∃ cfs, pkg.loadConfigs_loop env files res = Ok cfs.
Proof.
  intros HF. revert res.
  induction HF as [|g files (p & data & Hp & Hd) _ IH]; intros res;
    cbn [pkg.loadConfigs_loop].
  - by exists res.
  - rewrite Hp, Hd. apply IH.
Qed.

Lemma loadConfigs_loop_readable files res cfs :
  pkg.loadConfigs_loop env files res = Ok cfs → Forall (readable env) files.
Proof.
  revert res. induction files as [|g files IH]; intros res;
    cbn [pkg.loadConfigs_loop]; [constructor|].
  destruct (filepath_Abs env g) as [filePath|] eqn:Habs; [|done].
  destruct (ioutil_ReadFile env filePath) as [data|] eqn:Hread; [|done].
  intros Hl. constructor; [by exists filePath, data|by eapply IH].
Qed.

Lemma loadConfigs_loop_Err files res e :
  pkg.loadConfigs_loop env files res = Err e →
  ∃ pre f post,
    files = pre ++ f :: post ∧ Forall (readable env) pre
    ∧ (filepath_Abs env f = Err e
       ∨ ∃ p e', filepath_Abs env f = Ok p ∧ ioutil_ReadFile env p = Err e'
                 ∧ e = errors_New ("unable to open file " +:+ f +:+ ": "
                                   +:+ Error e')).
Proof.
  revert res. induction files as [|g files IH]; intros res;
    cbn [pkg.loadConfigs_loop]; [done|].
  destruct (filepath_Abs env g) as [filePath|e0] eqn:Habs.
  - destruct (ioutil_ReadFile env filePath) as [data|e0] eqn:Hread.
    + intros Hl. destruct (IH _ Hl) as (pre & f & post & -> & HF & Hf).
      exists (g :: pre), f, post. split_and!; [done| |done].
      constructor; [by exists filePath, data|done].
    + intros [= <-]. exists [], g, files. split_and!; [done|constructor|].
      right. by exists filePath, e0.
  - intros [= <-]. exists [], g, files. split_and!; [done|constructor|by left].
Qed.

(** X10. [loadConfigs] succeeds exactly when every given file name
    resolves and can be read. When it fails, the error comes from the
    first name that does not: the error of the path resolution as it is,
    or the error of the read wrapped in a text that quotes the name as it
    was given. *)
Theorem loadConfigs_all_or_nothing (files : list string) :
  ((∃ cfs, pkg.loadConfigs env files = Ok cfs) ↔ Forall (readable env) files)
  ∧ ∀ e, pkg.loadConfigs env files = Err e →
      ∃ pre f post,
        files = pre ++ f :: post ∧ Forall (readable env) pre
        ∧ (filepath_Abs env f = Err e
           ∨ ∃ p e', filepath_Abs env f = Ok p
                     ∧ ioutil_ReadFile env p = Err e'
                     ∧ e = errors_New ("unable to open file " +:+ f +:+ ": "
                                       +:+ Error e')).
Proof.
  split; [split|].
  - intros [cfs Hl]. by eapply loadConfigs_loop_readable.
  - apply loadConfigs_loop_Ok.
  - intros e. apply loadConfigs_loop_Err.
Qed.
End LoadingConfigs.

(** ** The modules [readPolicies] returns *)

Section PolicyModules.
Context (env : Env).

Lemma readPolicies_loop_module_of dirPath file files ms :
  pkg.readPolicies_loop env dirPath (file :: files) ms
  = if strings_HasSuffix (os.Name file) ".rego" then
      match module_of env dirPath (os.Name file) with
      | Ok parsed =>
          pkg.readPolicies_loop env dirPath files
                                (<[os.Name file := parsed]> ms)
      | Err err => Err err
      end
    else pkg.readPolicies_loop env dirPath files ms.
Proof.
  cbn [pkg.readPolicies_loop]. unfold module_of.
  destruct (strings_HasSuffix (os.Name file) ".rego"); cbn [negb]; [|done].
  by destruct (ioutil_ReadFile env _).
Qed.

(** An entry of the map survives the loop unless a policy file of the
    same name follows. *)
Lemma readPolicies_loop_keeps dirPath files ms0 ms name m :
  pkg.readPolicies_loop env dirPath files ms0 = Ok ms →
  ms0 !! name = Some m →
  (∀ file, file ∈ files → os.Name file = name →
           strings_HasSuffix name ".rego" = false) →
  ms !! name = Some m.
Proof.
  revert ms0. induction files as [|file files IH]; intros ms0.
  - cbn [pkg.readPolicies_loop]. by intros [= <-].
  - rewrite readPolicies_loop_module_of. intros Hloop Hm Hno.
    assert (∀ f, f ∈ files → os.Name f = name →
                 strings_HasSuffix name ".rego" = false) as Hno'.
    { intros f Hf. apply Hno. by right. }
    destruct (strings_HasSuffix (os.Name file) ".rego") eqn:Hsuf;
      [|by eapply IH].
    destruct (module_of env dirPath (os.Name file)) as [parsed|]; [|done].
    eapply IH; [exact Hloop| |exact Hno'].
    rewrite lookup_insert_ne; [done|]. intros Hname.
    rewrite Hname, (Hno file) in Hsuf; [done|left|done].
Qed.

(** Every policy file the loop passes ends up in the map, with the
    module parsed from it. *)
Lemma readPolicies_loop_holds dirPath files ms0 ms file :
  pkg.readPolicies_loop env dirPath files ms0 = Ok ms →
  file ∈ files → strings_HasSuffix (os.Name file) ".rego" = true →
  ∃ m, module_of env dirPath (os.Name file) = Ok m
       ∧ ms !! os.Name file = Some m.
Proof.
  revert ms0 file. induction files as [|file0 files IH]; intros ms0 file;
    [by intros _ ?%elem_of_nil|].
  rewrite readPolicies_loop_module_of. intros Hloop Hin Hsuf.
  apply elem_of_cons in Hin as [->|Hin].
  - rewrite Hsuf in Hloop.
    destruct (module_of env dirPath (os.Name file0)) as [parsed|] eqn:Hm;
      [|done].
    exists parsed. split; [done|].
    destruct (decide (Exists (λ f, os.Name f = os.Name file0) files))
      as [Hex|Hex].
    + apply Exists_exists in Hex as (f & Hf & Hname).
      destruct (IH _ f Hloop Hf) as (m & Hm' & Hl); [by rewrite Hname|].
      rewrite Hname in Hm', Hl. congruence.
    + eapply readPolicies_loop_keeps; [exact Hloop|apply lookup_insert_eq|].
      intros f Hf Hname. exfalso. apply Hex, Exists_exists. eauto.
  - destruct (strings_HasSuffix (os.Name file0) ".rego"); [|by eapply IH].
    destruct (module_of env dirPath (os.Name file0)); [|done].
    by eapply IH.
Qed.

Lemma readPolicies_loop_from dirPath files ms0 ms name m :
  pkg.readPolicies_loop env dirPath files ms0 = Ok ms →
  ms !! name = Some m →
  ms0 !! name = Some m
  ∨ ∃ file, file ∈ files ∧ os.Name file = name
            ∧ strings_HasSuffix name ".rego" = true
            ∧ module_of env dirPath name = Ok m.
Proof.
  revert ms0. induction files as [|file files IH]; intros ms0.
  - cbn [pkg.readPolicies_loop]. intros [= <-] ?. by left.
  - rewrite readPolicies_loop_module_of. intros Hloop Hm.
    destruct (strings_HasSuffix (os.Name file) ".rego") eqn:Hsuf.
    + destruct (module_of env dirPath (os.Name file)) as [parsed|] eqn:Hmod;
        [|done].
      destruct (IH _ Hloop Hm) as [Hins|(f & ? & ? & ? & ?)].
      * rewrite lookup_insert in Hins. case_decide as Hn; [|by left].
        injection Hins as <-. subst name. right. exists file.
        split_and!; [left|done..].
      * right. exists f. split_and!; [by right|done..].
    + destruct (IH _ Hloop Hm) as [?|(f & ? & ? & ? & ?)]; [by left|].
      right. exists f. split_and!; [by right|done..].
Qed.

Lemma readPolicies_candidates pPath :
  (∃ e, os_Stat env pPath = Err e
        ∧ pkg.readPolicies env pPath
          = Err (errors_New ("error loading policies from " +:+ pPath +:+ ": "
                             +:+ Error e)))
  ∨ (∃ info e, os_Stat env pPath = Ok info ∧ os.IsDir info = true
               ∧ ioutil_ReadDir env pPath = Err e
               ∧ pkg.readPolicies env pPath
                 = Err (errors_New ("error loading policies from " +:+ pPath
                                    +:+ ": " +:+ Error e)))
  ∨ (∃ dirPath files,
       candidates env pPath dirPath files
       ∧ pkg.readPolicies env pPath
         = pkg.readPolicies_loop env dirPath files ∅).
Proof.
  unfold pkg.readPolicies, candidates.
  destruct (os_Stat env pPath) as [info|e] eqn:Hstat; [|left; by exists e].
  right. destruct (os.IsDir info) eqn:Hdir.
  - destruct (ioutil_ReadDir env pPath) as [files|e] eqn:Hrd.
    + right. exists pPath, files. split; [|done]. exists info.
      by rewrite Hdir.
    + left. by exists info, e.
  - right. exists (filepath_Dir env pPath), [info]. split; [|done].
    exists info. by rewrite Hdir.
Qed.

(** X11. When [readPolicies] succeeds, the module map holds exactly the
    candidate files whose name ends in [.rego]: every such file is a key,
    bound to the module parsed from the bytes read from it, and there is
    no other key. *)
Theorem readPolicies_modules (pPath : string) (ms : gmap string ast.Module) :
  pkg.readPolicies env pPath = Ok ms →
  ∃ dirPath files,
    candidates env pPath dirPath files
    ∧ ∀ name m,
        ms !! name = Some m
        ↔ ∃ file, file ∈ files ∧ os.Name file = name
                  ∧ strings_HasSuffix name ".rego" = true
                  ∧ module_of env dirPath name = Ok m.
Proof.
  intros Hr.
  destruct (readPolicies_candidates pPath)
    as [(e & _ & He)|[(info & e & _ & _ & _ & He)|(dirPath & files & Hc & Hl)]];
    [congruence..|].
  rewrite Hl in Hr. exists dirPath, files. split; [done|].
  intros name m. split.
  - intros Hm. destruct (readPolicies_loop_from _ _ _ _ _ _ Hr Hm) as [Hemp|?];
      [by rewrite lookup_empty in Hemp|done].
  - intros (file & Hin & <- & Hsuf & Hmod).
    destruct (readPolicies_loop_holds _ _ _ _ _ Hr Hin Hsuf) as (m' & Hm' & Hl').
    congruence.
Qed.

Lemma readPolicies_loop_Err dirPath files ms0 e :
  pkg.readPolicies_loop env dirPath files ms0 = Err e →
  ∃ pre file post,
    files = pre ++ file :: post
    ∧ strings_HasSuffix (os.Name file) ".rego" = true
    ∧ module_of env dirPath (os.Name file) = Err e
    ∧ Forall (λ f, strings_HasSuffix (os.Name f) ".rego" = true →
                   ∃ m, module_of env dirPath (os.Name f) = Ok m) pre.
Proof.
  revert ms0. induction files as [|file files IH]; intros ms0;
    [done|].
  rewrite readPolicies_loop_module_of.
  destruct (strings_HasSuffix (os.Name file) ".rego") eqn:Hsuf.
  - destruct (module_of env dirPath (os.Name file)) as [parsed|e0] eqn:Hmod.
    + intros Hl. destruct (IH _ Hl) as (pre & f & post & -> & ? & ? & HF).
      exists (file :: pre), f, post. split_and!; [done..|].
      constructor; [eauto|done].
    + intros [= <-]. exists [], file, files.
      split_and!; [done..|constructor].
  - intros Hl. destruct (IH _ Hl) as (pre & f & post & -> & ? & ? & HF).
    exists (file :: pre), f, post. split_and!; [done..|].
    constructor; [congruence|done].
Qed.

(** X12. [readPolicies] fails in three ways only: the path cannot be
    examined, or the directory cannot be listed, both reported with the
    path in the text; or a candidate file whose name ends in [.rego]
    cannot be read or parsed, in which case the error of the first such
    file is returned unchanged. A file with another suffix never makes it
    fail. *)
Theorem readPolicies_error_origin (pPath : string) (e : error) :
  pkg.readPolicies env pPath = Err e →
  (∃ e', (os_Stat env pPath = Err e'
          ∨ ∃ info, os_Stat env pPath = Ok info ∧ os.IsDir info = true
                    ∧ ioutil_ReadDir env pPath = Err e')
         ∧ e = errors_New ("error loading policies from " +:+ pPath +:+ ": "
                           +:+ Error e'))
  ∨ ∃ dirPath pre file post,
      candidates env pPath dirPath (pre ++ file :: post)
      ∧ strings_HasSuffix (os.Name file) ".rego" = true
      ∧ module_of env dirPath (os.Name file) = Err e
      ∧ Forall (λ f, strings_HasSuffix (os.Name f) ".rego" = true →
                     ∃ m, module_of env dirPath (os.Name f) = Ok m) pre.
Proof.
  intros Hr.
  destruct (readPolicies_candidates pPath)
    as [(e' & Hs & He)|[(info & e' & Hs & Hd & Hrd & He)
                       |(dirPath & files & Hc & Hl)]].
  - left. exists e'. split; [by left|congruence].
  - left. exists e'. split; [right; by exists info|congruence].
  - right. rewrite Hl in Hr.
    destruct (readPolicies_loop_Err _ _ _ _ Hr)
      as (pre & file & post & -> & ? & ? & ?).
    by exists dirPath, pre, file, post.
Qed.
End PolicyModules.

(** ** Which names become queries *)

Lemma filter_bind {A B : Type} (P : B → Prop) `{∀ x, Decision (P x)}
    (f : A → list B) (l : list A) :
  filter P (l ≫= f) = l ≫= λ x, filter P (f x).
Proof.
  induction l as [|x l IH]; [done|].
  by rewrite !bind_cons, filter_app, IH.
Qed.

Lemma filter_ext_bool {A : Type} (f g : A → bool) (l : list A) :
  (∀ x, f x = g x) → filter (λ x, f x) l = filter (λ x, g x) l.
Proof.
  intros Hfg. induction l as [|x l IH]; [done|].
  rewrite !filter_cons, IH, (Hfg x). by destruct (g x).
Qed.

Lemma selected_bind (q : regex) (word : string) (mods : list ast.Module) :
  (∀ n, MatchString q n = strings_Contains n word) →
  mods ≫= selected q
  = filter (λ n, strings_Contains n word) (mods ≫= rule_names).
Proof.
  intros Hq. rewrite filter_bind. unfold selected.
  induction mods as [|m mods IH]; [done|]. rewrite !bind_cons, IH.
  f_equal. by apply filter_ext_bool.
Qed.

(** X13. The denial names are all the rule names that contain [deny],
    module after module and rule after rule, a name defined twice being
    kept twice; the same holds for the warning names and [warn]. A name
    that contains both words is dispatched under both classes. *)
Theorem classify_keeps_all (mods : list ast.Module) :
  (pkg.classify mods).1
  = filter (λ n, strings_Contains n "deny") (mods ≫= rule_names)
  ∧ (pkg.classify mods).2
    = filter (λ n, strings_Contains n "warn") (mods ≫= rule_names)
  ∧ ∀ n, n ∈ (pkg.classify mods).1 ∧ n ∈ (pkg.classify mods).2
         ↔ n ∈ mods ≫= rule_names
           ∧ strings_Contains n "deny" = true
           ∧ strings_Contains n "warn" = true.
Proof.
  assert ((pkg.classify mods).1
          = filter (λ n, strings_Contains n "deny") (mods ≫= rule_names)) as H1.
  { rewrite classify_spec. apply selected_bind, MatchString_failQ. }
  assert ((pkg.classify mods).2
          = filter (λ n, strings_Contains n "warn") (mods ≫= rule_names)) as H2.
  { rewrite classify_spec. apply selected_bind, MatchString_warnQ. }
  split_and!; [done..|]. intros n.
  rewrite H1, H2, !list_elem_of_filter, !Is_true_true. tauto.
Qed.

(** ** The extension of a path *)

Lemma list_ascii_of_string_app (a b : string) :
  list_ascii_of_string (a +:+ b)
  = list_ascii_of_string a ++ list_ascii_of_string b.
Proof.
  induction a as [|c a IH]; [done|].
  change (String c a +:+ b) with (String c (a +:+ b)).
  cbn [list_ascii_of_string app]. by rewrite IH.
Qed.

Lemma Ext_scan_separator (x y tail : list ascii) :
  Ext_scan (x ++ "/"%char :: y) tail = Ext_scan x tail.
Proof.
  revert tail. induction x as [|c x IH]; intros tail; [done|].
  cbn [app Ext_scan]. destruct (ascii_eqb c "/"); [done|].
  destruct (ascii_eqb c "."); [done|]. apply IH.
Qed.

Lemma Ext_scan_shape (rest tail : list ascii) :
  Ext_scan rest tail = [] ∨ ∃ t, Ext_scan rest tail = "."%char :: t.
Proof.
  revert tail. induction rest as [|c rest IH]; intros tail; [by left|].
  cbn [Ext_scan]. destruct (ascii_eqb c "/"); [by left|].
  destruct (ascii_eqb c ".") eqn:Hc; [|apply IH].
  unfold ascii_eqb in Hc. apply bool_decide_eq_true in Hc.
  subst c. right. by exists tail.
Qed.

(** X14. The decoder depends on the last element of the path only: a
    directory in front of a file name changes neither the extension nor
    whether a decoder is found, so a dot in a directory name is never
    taken for an extension. The extension is empty or begins with a
    dot. *)
Theorem Get_base_name (unm : list byte → result value) (dir base : string) :
  filepath_Ext (dir +:+ "/" +:+ base) = filepath_Ext base
  ∧ ((∃ p, parsers.Get unm (dir +:+ "/" +:+ base) = Ok p)
     ↔ ∃ p, parsers.Get unm base = Ok p)
  ∧ (filepath_Ext base = "" ∨ ∃ t, filepath_Ext base = String "." t).
Proof.
  assert (filepath_Ext (dir +:+ "/" +:+ base) = filepath_Ext base) as HE.
  { unfold filepath_Ext. rewrite !list_ascii_of_string_app, rev_app_distr.
    change (list_ascii_of_string "/") with ["/"%char].
    rewrite rev_app_distr. cbn [rev app].
    rewrite <- app_assoc. cbn [app]. by rewrite Ext_scan_separator. }
  split_and!; [done| |].
  - unfold parsers.Get. rewrite HE.
    destruct (bool_decide _ || bool_decide _ || bool_decide _);
      split; intros [p Hp]; by eauto.
  - unfold filepath_Ext.
    destruct (Ext_scan_shape (rev (list_ascii_of_string base)) [])
      as [->|[t ->]]; [by left|right; by eexists].
Qed.

(** ** The report and the exit status *)

Section Reporting.
Context (env : Env) (sched : pkg.schedule).

(** X15. The exit status tells how [Run] ended and nothing else: it is 0
    exactly when [Run] returned without error, 1 exactly when [Run]
    returned an error, and 2 exactly when a query panicked. Recorded
    failures and strict mode have no influence on it. *)
Theorem main_exit_status (a : main.args) :
  let r := out (pkg.Run env sched
                  (pkg.NewConfChecker (main.namespace a) (main.policyDir a)
                                      (main.configs a))) in
  ((main.main env sched a).2 = 0%Z ↔ ∃ cr, r = Done (cr, None))
  ∧ ((main.main env sched a).2 = 1%Z ↔ ∃ cr e, r = Done (cr, Some e))
  ∧ ((main.main env sched a).2 = 2%Z ↔ r = Panicked).
Proof.
  intros r. unfold main.main, main.confCheck. rewrite out_bind. fold r.
  destruct r as [[cr [e|]]|]; cbn [out mret M_ret];
    try destruct (main.report _ _ _) as [ls err];
    cbn [out mret M_ret snd];
    split_and!; split; intros H; try done;
    try (by destruct H as (? & ?)); try (by destruct H as (? & ? & ?));
    eauto.
Qed.
End Reporting.

Lemma print_failures_lines f fas err :
  (main.print_failures f fas err).1 = map (main.printer_err f) fas.
Proof.
  revert err. induction fas as [|fa fas IH]; intros err; [done|].
  cbn [main.print_failures map]. specialize (IH fa).
  destruct (main.print_failures f fas fa) as [ls err']. cbn [fst] in *.
  by rewrite IH.
Qed.

(** The expected lines, in terms of the printer. *)
Lemma lines_of_printers strict fr :
  lines_of strict fr
  = (if bool_decide (length (pkg.Warnings fr.2) = 0)
        && bool_decide (length (pkg.Failures fr.2) = 0)
     then [main.printer_ok fr.1] else [])
    ++ main.print_warnings strict fr.1 (pkg.Warnings fr.2)
    ++ map (main.printer_err fr.1) (pkg.Failures fr.2).
Proof.
  destruct fr as [f [fs ws]]. unfold lines_of, main.print_warnings.
  cbn [fst snd pkg.Warnings pkg.Failures].
  destruct ws as [|w ws], fs as [|fa fs], strict; reflexivity.
Qed.

Lemma report_lines strict cr err :
  (main.report strict cr err).1 = cr ≫= lines_of strict.
Proof.
  revert err. induction cr as [|[f res] cr IH]; intros err; [done|].
  cbn [main.report]. rewrite bind_cons.
  pose proof (print_failures_lines f (pkg.Failures res) err) as Hf.
  destruct (main.print_failures f (pkg.Failures res) err) as [failed err1].
  specialize (IH err1).
  destruct (main.report strict cr err1) as [ls err2]. cbn [fst] in *.
  rewrite lines_of_printers. cbn [fst snd]. by rewrite Hf, IH, <- !app_assoc.
Qed.

Lemma printer_ok_inj f g : main.printer_ok f = main.printer_ok g → f = g.
Proof. unfold main.printer_ok. intros H. cbv in H. by injection H. Qed.

(** X16. The report prints, file after file in visiting order: for a
    file with no entry at all the one green line [Passed: file]; for any
    other file one line per warning, in order, the yellow line
    [Warning: file - message], or in strict mode the red line
    [Failure: file - message], and then one red line
    [Failure: file - message] per failure, in order. These are the lines
    [confCheck] returns when the run succeeds. So every recorded entry is
    printed once, with its file and its message; [Passed] is printed for
    a file exactly when both of its lists are empty; strict mode changes
    no count and leaves no yellow line. *)
Theorem report_prints_all (strict : bool)
    (cr : list (string * pkg.CheckResult)) (err : option error) :
  (main.report strict cr err).1 = cr ≫= lines_of strict
  ∧ (∀ env sched a res,
       out (pkg.Run env sched
              (pkg.NewConfChecker (main.namespace a) (main.policyDir a)
                                  (main.configs a))) = Done (res, None) →
       out (main.confCheck env sched a)
       = Done (pkg.order_results sched res ≫= lines_of (main.strict a), None))
  ∧ length (main.report strict cr err).1
    = sum_list_with
        (λ fr, if bool_decide (pkg.Warnings fr.2 = [] ∧ pkg.Failures fr.2 = [])
               then 1
               else length (pkg.Warnings fr.2) + length (pkg.Failures fr.2)) cr
  ∧ (∀ f, main.Green ("Passed: " +:+ f) ∈ (main.report strict cr err).1
          ↔ ∃ res, (f, res) ∈ cr
                   ∧ pkg.Warnings res = [] ∧ pkg.Failures res = [])
  ∧ length (main.report true cr err).1 = length (main.report false cr err).1
  ∧ Forall (λ l, is_yellow l = false) (main.report true cr err).1.
Proof.
  split; [apply report_lines|]. split.
  { intros env sched a res HR. unfold main.confCheck.
    rewrite out_bind, HR. cbv beta iota.
    pose proof (report_lines (main.strict a) (pkg.order_results sched res) None)
      as Hl.
    destruct (main.report (main.strict a) (pkg.order_results sched res) None)
      as [ls e]. cbn [fst] in Hl. by rewrite Hl. }
  rewrite !report_lines.
  assert (∀ b fr, length (lines_of b fr)
                  = if bool_decide (pkg.Warnings fr.2 = []
                                    ∧ pkg.Failures fr.2 = [])
                    then 1
                    else length (pkg.Warnings fr.2)
                         + length (pkg.Failures fr.2)) as Hlen.
  { intros b [f [fs ws]]. unfold lines_of.
    cbn [fst snd pkg.Warnings pkg.Failures].
    destruct ws as [|w ws], fs as [|fa fs]; cbn; try done.
    all: rewrite ?length_app, ?length_map; cbn.
    all: rewrite ?length_map; lia. }
  split_and!.
  - induction cr as [|fr cr IH]; [done|].
    by rewrite bind_cons, length_app, IH, Hlen.
  - intros f. rewrite list_elem_of_bind. split.
    + intros ([g [fs ws]] & Hin & Hcr). exists {| pkg.Failures := fs;
                                                  pkg.Warnings := ws |}.
      unfold lines_of in Hin.
      cbn [fst snd pkg.Warnings pkg.Failures] in *.
      destruct ws as [|w ws], fs as [|fa fs].
      * apply list_elem_of_singleton in Hin.
        apply printer_ok_inj in Hin as ->. done.
      * rewrite elem_of_app, !list_elem_of_fmap in Hin.
        destruct Hin as [(? & ? & ?)|(? & ? & ?)]; [by destruct strict|done].
      * rewrite elem_of_app, !list_elem_of_fmap in Hin.
        destruct Hin as [(? & ? & ?)|(? & ? & ?)]; [by destruct strict|done].
      * rewrite elem_of_app, !list_elem_of_fmap in Hin.
        destruct Hin as [(? & ? & ?)|(? & ? & ?)]; [by destruct strict|done].
    + intros (res & Hin & Hw & Hf). exists (f, res). split; [|done].
      unfold lines_of. cbn [fst snd]. rewrite Hw, Hf. left.
  - induction cr as [|fr cr IH]; [done|].
    by rewrite !bind_cons, !length_app, IH, !Hlen.
  - apply Forall_forall. intros l ([f [fs ws]] & Hin & _)%list_elem_of_bind.
    unfold lines_of in Hin.
    cbn [fst snd pkg.Warnings pkg.Failures] in Hin.
    destruct ws as [|w ws], fs as [|fa fs].
    + by apply list_elem_of_singleton in Hin as ->.
    + rewrite elem_of_app, !list_elem_of_fmap in Hin.
      by destruct Hin as [(? & -> & ?)|(? & -> & ?)].
    + rewrite elem_of_app, !list_elem_of_fmap in Hin.
      by destruct Hin as [(? & -> & ?)|(? & -> & ?)].
    + rewrite elem_of_app, !list_elem_of_fmap in Hin.
      by destruct Hin as [(? & -> & ?)|(? & -> & ?)].
Qed.

(** ** When a run completes *)

Section Completion.
Context (env : Env).

Lemma runQuery_returns query input compiler :
  well_typed env → ∃ e, out (pkg.runQuery env query input compiler) = Done e.
Proof.
  intros Hwt. unfold pkg.runQuery, pkg.Query_Build. rewrite out_bind.
  cbn [emit out].
  destruct (rego_PrepareForEval env _) as [pq|]; [|by eexists].
  destruct (rego_Eval env pq) as [rr|] eqn:Heval; [|by eexists].
  cbn [lift out]. eexists.
  exact (append_results_strings rr [] (Hwt pq rr Heval)).
Qed.

Lemma run_queries_returns ns queries input compiler acc :
  well_typed env →
  ∃ acc', out (pkg.run_queries env ns queries input compiler acc) = Done acc'.
Proof.
  intros Hwt. revert acc. induction queries as [|q queries IH]; intros acc;
    cbn [pkg.run_queries]; [by eexists|].
  destruct (runQuery_returns ("data." +:+ ns +:+ "." +:+ q) input compiler Hwt)
    as [e He].
  rewrite out_bind, He. apply IH.
Qed.

Lemma process_parts_returns ns fQ wQ compiler parts fails warns :
  well_typed env →
  Forall (λ part, ∃ input, yaml_Unmarshal env part = Ok input) parts →
  ∃ fs ws,
    out (pkg.process_parts env (parsers.parseYAML (yaml_Unmarshal env)) ns
           fQ wQ compiler parts fails warns) = Done (fs, ws, None).
Proof.
  intros Hwt HF. revert fails warns.
  induction HF as [|part parts [input Hp] _ IH]; intros fails warns;
    cbn [pkg.process_parts]; [by eexists _, _|].
  unfold parsers.parseYAML at 1. rewrite Hp.
  destruct (run_queries_returns ns fQ input compiler fails Hwt) as [fails' Hf].
  destruct (run_queries_returns ns wQ input compiler warns Hwt) as [warns' Hw].
  rewrite out_bind, Hf. cbv beta iota. rewrite out_bind, Hw. apply IH.
Qed.

(** X17. A run completes without error and without panic whenever the
    policies build, the config files load, every loaded file has a
    supported extension and parts that all decode, and the engine puts
    only strings in its list values. Violations and errors of the engine
    do not stop it: they are entries of the result. *)
Theorem Run_completes (sched : pkg.schedule) (c : pkg.ConfChecker)
    (compiler : pkg.Compiler) (cfs : gmap string (list (list byte))) :
  pkg.visits_all sched →
  pkg.Build env (pkg.NewCompiler (pkg.policyDir c)) = (compiler, None) →
  pkg.loadConfigs env (pkg.configs c) = Ok cfs →
  (∀ name parts, cfs !! name = Some parts →
     filepath_Ext name ∈ supported
     ∧ Forall (λ part, ∃ input, yaml_Unmarshal env part = Ok input) parts) →
  well_typed env →
  ∃ cr, out (pkg.Run env sched c) = Done (cr, None) ∧ dom cr = dom cfs.
Proof.
  intros Hsched HB HL Hfiles Hwt.
  assert (∃ cr, out (pkg.Run env sched c) = Done (cr, None)) as [cr HR].
  { unfold pkg.Run. rewrite HB, HL.
    destruct (Build_ok env _ _ HB) as [a Ha]. rewrite Ha.
    apply Run_loop_complete, Forall_forall. intros [name parts] Hin.
    apply (visited_configs sched cfs Hsched) in Hin.
    destruct (Hfiles name parts Hin) as [Hext Hparts].
    unfold file_result, pkg.processFile. cbn [fst snd].
    rewrite (Get_supported env name Hext).
    destruct (process_parts_returns (pkg.namespace c)
                (pkg.classify
                   (pkg.order_Modules sched name (ast.Modules a)).*2).1
                (pkg.classify
                   (pkg.order_Modules sched name (ast.Modules a)).*2).2
                (Some a) parts [] [] Hwt Hparts) as (fs & ws & ->).
    by eexists. }
  exists cr. split; [done|].
  destruct (Run_success env sched c cr Hsched HR)
    as (compiler' & cfs' & _ & HL' & _ & Hdom).
  congruence.
Qed.
End Completion.

(** ** Instances *)

Lemma files_reversed_visits_all : pkg.visits_all Fixture.files_reversed.
Proof. split_and!; intros; simpl; [done|apply reverse_Permutation|done]. Qed.

(** A query with two messages. *)
Lemma runQuery_collects_messages_witness :
  out (pkg.runQuery (Fixture.world [("main.rego", ["deny"])] [] [] Fixture.twice)
         "data.main.deny" (VString "kind: A") None)
  = Done (Some (multiError [errorString "a"; errorString "b"])).
Proof.
  edestruct (runQuery_collects_messages
               (Fixture.world [("main.rego", ["deny"])] [] [] Fixture.twice)
               "data.main.deny" (VString "kind: A") None) as [H _];
    [reflexivity|reflexivity| |exact H].
  repeat constructor; by eexists.
Defined.

(** A file of two parts and one denial rule. *)
Lemma processFile_entries_witness :
  let env := Fixture.world [("main.rego", ["deny"])] [] [] Fixture.echo in
  let a := {| ast.Modules := {[ "main.rego" := Fixture.module ["deny"] ]};
              ast.Errors := None |} in
  ∃ inputs,
    Forall2 (λ part input,
               parsers.parseYAML (yaml_Unmarshal env) part = Ok input)
            [Fixture.bytes "kind: A"; Fixture.bytes "kind: B"] inputs
    ∧ Forall2 (returned env "main" (Some a))
              [Some (errorString "data.main.deny");
               Some (errorString "data.main.deny")]
              (inputs ≫= λ i, pair i <$> ["deny"]).
Proof.
  intros env a.
  destruct (processFile_entries env pkg.listed "main" "/c/a.yaml"
              [Fixture.bytes "kind: A"; Fixture.bytes "kind: B"] a
              [Some (errorString "data.main.deny");
               Some (errorString "data.main.deny")] [])
    as (inputs & HF & Hfs & _); [vm_compute; reflexivity|].
  exists inputs. split; [exact HF|exact Hfs].
Defined.

(** A file whose second part cannot be decoded. *)
Lemma processFile_error_origin_witness :
  let env := Fixture.world [("main.rego", ["deny"])] [] [] Fixture.echo in
  let a := {| ast.Modules := {[ "main.rego" := Fixture.module ["deny"] ]};
              ast.Errors := None |} in
  ∃ fs ws err,
    out (pkg.processFile env pkg.listed "main" "/c/a.yaml"
           [Fixture.bytes "kind: A"; Fixture.bytes "{"] (Some a))
    = Done (fs, ws, Some err)
    ∧ fs = [] ∧ ws = [].
Proof.
  intros env a. eexists _, _, _. split; [vm_compute; reflexivity|].
  edestruct (processFile_error_origin env pkg.listed "main" "/c/a.yaml"
               [Fixture.bytes "kind: A"; Fixture.bytes "{"] (Some a))
    as (Hfs & Hws & _); [vm_compute; reflexivity|].
  split; [exact Hfs|exact Hws].
Defined.

(** A batch with a file that cannot be decoded. *)
Lemma Run_error_origin_witness :
  let env :=
    Fixture.world [("main.rego", ["deny"])] []
      [("/c/a.yaml", Fixture.bytes "{"); ("/c/b.yaml", Fixture.bytes "kind: B")]
      Fixture.quiet in
  ∃ cr e,
    out (pkg.Run env pkg.listed (Fixture.checker ["/c/a.yaml"; "/c/b.yaml"]))
    = Done (cr, Some e)
    ∧ cr = ∅.
Proof.
  intros env. eexists _, _. split; [vm_compute; reflexivity|].
  edestruct (Run_error_origin env pkg.listed
               (Fixture.checker ["/c/a.yaml"; "/c/b.yaml"])) as [Hcr _];
    [vm_compute; reflexivity|].
  exact Hcr.
Defined.

(** A batch of two files that are both checked. *)
Lemma Run_result_map_witness :
  let env :=
    Fixture.world [("main.rego", ["deny"])] []
      [("/c/a.yaml", Fixture.bytes "kind: A");
       ("/c/b.yaml", Fixture.bytes "kind: B")]
      Fixture.quiet in
  let c := Fixture.checker ["/c/a.yaml"; "/c/b.yaml"] in
  ∃ cr, out (pkg.Run env pkg.listed c) = Done (cr, None)
        ∧ ∃ cfs, pkg.loadConfigs env (pkg.configs c) = Ok cfs
                 ∧ dom cr = dom cfs.
Proof.
  intros env c. eexists. split; [vm_compute; reflexivity|].
  edestruct (Run_result_map env pkg.listed c)
    as (compiler & cfs & _ & HL & _ & Hdom);
    [apply listed_visits_all|vm_compute; reflexivity|].
  exists cfs. split; [exact HL|exact Hdom].
Defined.

(** The same batch with the two files visited in the other order. *)
Lemma Run_any_file_order_witness :
  let env :=
    Fixture.world [("main.rego", ["deny"])] []
      [("/c/a.yaml", Fixture.bytes "kind: A");
       ("/c/b.yaml", Fixture.bytes "kind: B")]
      Fixture.quiet in
  let c := Fixture.checker ["/c/a.yaml"; "/c/b.yaml"] in
  ∃ cr, out (pkg.Run env pkg.listed c) = Done (cr, None)
        ∧ out (pkg.Run env Fixture.files_reversed c) = Done (cr, None).
Proof.
  intros env c. eexists. split; [vm_compute; reflexivity|].
  apply (Run_any_file_order env pkg.listed Fixture.files_reversed c).
  - apply listed_visits_all.
  - apply files_reversed_visits_all.
  - reflexivity.
  - vm_compute. reflexivity.
Defined.

(** Two files, three parts, one denial rule and one warning rule. *)
Lemma Run_calls_witness :
  let env :=
    Fixture.world [("main.rego", ["deny"; "warn"])] []
      [("/c/a.yaml", Fixture.bytes "kind: A");
       ("/c/b.yaml",
        Fixture.bytes ("kind: B" +:+ Fixture.nl +:+ "---" +:+ Fixture.nl
                       +:+ "kind: C"))]
      Fixture.quiet in
  let c := Fixture.checker ["/c/a.yaml"; "/c/b.yaml"] in
  ∃ a cfs,
    pkg.loadConfigs env (pkg.configs c) = Ok cfs
    ∧ length (trace (pkg.Run env pkg.listed c))
      = total_parts cfs
        * (length (pkg.classify (map_to_list (ast.Modules a)).*2).1
           + length (pkg.classify (map_to_list (ast.Modules a)).*2).2).
Proof.
  intros env c.
  edestruct (Run_calls env pkg.listed c)
    as (compiler & a & cfs & _ & _ & HL & Hn);
    [apply listed_visits_all|vm_compute; reflexivity|].
  exists a, cfs. split; [exact HL|exact Hn].
Defined.

(** The same file named twice. *)
Lemma loadConfigs_keys_witness :
  let env :=
    Fixture.world [] [] [("/c/a.yaml", Fixture.bytes "kind: A")]
                  Fixture.quiet in
  ∃ cfs, pkg.loadConfigs env ["/c/a.yaml"; "/c/a.yaml"] = Ok cfs
         ∧ size cfs ≤ 2.
Proof.
  intros env. eexists. split; [vm_compute; reflexivity|].
  edestruct (loadConfigs_keys env ["/c/a.yaml"; "/c/a.yaml"]) as [_ Hsize];
    [vm_compute; reflexivity|].
  exact Hsize.
Defined.

(** The policy directory of the fixture, with a file that is not a
    policy. *)
Lemma readPolicies_modules_witness :
  let env :=
    Fixture.world [("main.rego", ["deny"]); ("notes.txt", ["warn"])] [] []
                  Fixture.quiet in
  ∃ ms dirPath files,
    pkg.readPolicies env "policies" = Ok ms
    ∧ candidates env "policies" dirPath files
    ∧ ∀ name m,
        ms !! name = Some m
        ↔ ∃ file, file ∈ files ∧ os.Name file = name
                  ∧ strings_HasSuffix name ".rego" = true
                  ∧ module_of env dirPath name = Ok m.
Proof.
  intros env. eexists.
  edestruct (readPolicies_modules env "policies")
    as (dirPath & files & Hc & Hm); [vm_compute; reflexivity|].
  exists dirPath, files. split_and!; [reflexivity|exact Hc|exact Hm].
Defined.

(** A policy path that does not exist. *)
Lemma readPolicies_error_origin_witness :
  let env := Fixture.world [("main.rego", ["deny"])] [] [] Fixture.quiet in
  ∃ e, pkg.readPolicies env "missing" = Err e
       ∧ ((∃ e', (os_Stat env "missing" = Err e'
                  ∨ ∃ info, os_Stat env "missing" = Ok info
                            ∧ os.IsDir info = true
                            ∧ ioutil_ReadDir env "missing" = Err e')
                 ∧ e = errors_New ("error loading policies from missing: "
                                   +:+ Error e'))
          ∨ ∃ dirPath pre file post,
              candidates env "missing" dirPath (pre ++ file :: post)
              ∧ strings_HasSuffix (os.Name file) ".rego" = true
              ∧ module_of env dirPath (os.Name file) = Err e
              ∧ Forall (λ f, strings_HasSuffix (os.Name f) ".rego" = true →
                             ∃ m, module_of env dirPath (os.Name f) = Ok m)
                       pre).
Proof.
  intros env. eexists. split; [vm_compute; reflexivity|].
  apply (readPolicies_error_origin env "missing"). vm_compute. reflexivity.
Defined.

(** One file, one rule, an engine without results. *)
Lemma Run_completes_witness :
  let env :=
    Fixture.world [("main.rego", ["deny"])] []
      [("/c/a.yaml", Fixture.bytes "kind: A")] Fixture.quiet in
  let c := Fixture.checker ["/c/a.yaml"] in
  ∃ cr, out (pkg.Run env pkg.listed c) = Done (cr, None)
        ∧ dom cr = dom ({[ "/c/a.yaml" := [Fixture.bytes "kind: A"] ]}
                          : gmap string (list (list byte))).
Proof.
  intros env c.
  eapply (Run_completes env pkg.listed c).
  - apply listed_visits_all.
  - vm_compute. reflexivity.
  - vm_compute. reflexivity.
  - intros name parts [<- <-]%lookup_singleton_Some. split.
    + replace (filepath_Ext "/c/a.yaml") with ".yaml"
        by (vm_compute; reflexivity).
      unfold supported. rewrite !elem_of_cons. auto.
    + constructor; [|constructor]. eexists. vm_compute. reflexivity.
  - intros pq rr Heval. injection Heval as <-. constructor.
Defined.

(** ** The suffix of a policy file *)

Lemma string_length_append (a b : string) :
  String.length (a +:+ b) = String.length a + String.length b.
Proof.
  induction a as [|c a IH]; [done|].
  change (String c a +:+ b) with (String c (a +:+ b)).
  cbn [String.length]. by rewrite IH.
Qed.

Lemma substring_all (s : string) : substring 0 (String.length s) s = s.
Proof. induction s as [|c s IH]; [done|]. cbn. by rewrite IH. Qed.

Lemma substring_append_r (pre suf : string) :
  substring (String.length pre) (String.length suf) (pre +:+ suf) = suf.
Proof.
  induction pre as [|c pre IH]; [apply substring_all|].
  change (String c pre +:+ suf) with (String c (pre +:+ suf)).
  cbn [String.length substring]. apply IH.
Qed.

Lemma substring_split (s : string) (n : nat) :
  n ≤ String.length s →
  s = substring 0 n s +:+ substring n (String.length s - n) s.
Proof.
  revert n. induction s as [|c s IH]; intros n Hn.
  - cbn in Hn. by replace n with 0 by lia.
  - destruct n as [|n].
    + change (substring 0 0 (String c s)) with "".
      rewrite Nat.sub_0_r. by rewrite substring_all.
    + cbn [String.length] in *. cbn [substring Nat.sub].
      change (String c (substring 0 n s) +:+
              substring n (String.length s - n) s)
        with (String c (substring 0 n s +:+
                        substring n (String.length s - n) s)).
      rewrite <- IH by lia. done.
Qed.

Lemma strings_HasSuffix_true (s suffix : string) :
  strings_HasSuffix s suffix = true ↔ ∃ stem, s = stem +:+ suffix.
Proof.
  unfold strings_HasSuffix.
  rewrite andb_true_iff, Nat.leb_le, bool_decide_eq_true. split.
  - intros [Hlen Hsub].
    exists (substring 0 (String.length s - String.length suffix) s).
    rewrite (substring_split s (String.length s - String.length suffix))
      at 1 by lia.
    f_equal.
    replace (String.length s - (String.length s - String.length suffix))
      with (String.length suffix) by lia.
    done.
  - intros [stem ->]. rewrite string_length_append. split; [lia|].
    replace (String.length stem + String.length suffix - String.length suffix)
      with (String.length stem) by lia.
    apply substring_append_r.
Qed.

Section OtherFiles.
Context (env : Env).

(** X18. [readPolicies] looks at a candidate file exactly when its name
    is some text followed by [.rego]. Every other candidate is ignored
    altogether: leaving such files out of the listing gives the same
    result, whether they could be read and parsed or not. *)
Theorem readPolicies_ignores_other_files (dirPath : string)
    (files : list os.FileInfo) (ms : gmap string ast.Module) :
  pkg.readPolicies_loop env dirPath files ms
  = pkg.readPolicies_loop env dirPath
      (filter (λ f, strings_HasSuffix (os.Name f) ".rego") files) ms
  ∧ ∀ f, f ∈ filter (λ f, strings_HasSuffix (os.Name f) ".rego") files
         ↔ f ∈ files ∧ ∃ stem, os.Name f = stem +:+ ".rego".
Proof.
  split.
  - revert ms. induction files as [|file files IH]; intros ms; [done|].
    rewrite filter_cons. case_decide as Hsuf.
    + apply Is_true_true in Hsuf.
      rewrite !readPolicies_loop_module_of, Hsuf.
      by destruct (module_of env dirPath (os.Name file)).
    + apply Is_true_false in Hsuf.
      by rewrite readPolicies_loop_module_of, Hsuf.
  - intros f.
    by rewrite list_elem_of_filter, Is_true_true, strings_HasSuffix_true,
      (and_comm (f ∈ files)).
Qed.
End OtherFiles.

(** ** The results and the visiting order of the modules *)

Section ModuleOrder.
Context (env : Env).

Lemma run_queries_of_entries ns queries input compiler acc es :
  Forall2 (returned env ns compiler) es (pair input <$> queries) →
  out (pkg.run_queries env ns queries input compiler acc) = Done (acc ++ es).
Proof.
  revert acc es. induction queries as [|q queries IH]; intros acc es HF;
    cbn [pkg.run_queries fmap list_fmap] in *.
  - apply Forall2_nil_inv_r in HF as ->. by rewrite app_nil_r.
  - apply Forall2_cons_inv_r in HF as (e & es' & He & HF & ->).
    unfold returned in He. cbn [fst snd] in He.
    rewrite out_bind, He. cbv beta iota.
    rewrite (IH _ _ HF). by rewrite <- app_assoc.
Qed.

Lemma run_queries_permuted ns q1 q2 input compiler acc1 acc2 acc1' :
  q1 ≡ₚ q2 → acc1 ≡ₚ acc2 →
  out (pkg.run_queries env ns q1 input compiler acc1) = Done acc1' →
  ∃ acc2', out (pkg.run_queries env ns q2 input compiler acc2) = Done acc2'
           ∧ acc1' ≡ₚ acc2'.
Proof.
  intros Hq Hacc Hd.
  apply run_queries_entries in Hd as (es1 & -> & HF).
  apply Forall2_flip in HF.
  assert (pair input <$> q1 ≡ₚ pair input <$> q2) as Hperm by by rewrite Hq.
  destruct (Permutation_Forall2 Hperm HF) as (es2 & Hes & HF2).
  apply Forall2_flip in HF2.
  exists (acc2 ++ es2). split; [by apply run_queries_of_entries|].
  by rewrite Hacc, Hes.
Qed.

Lemma process_parts_permuted p ns fQ1 fQ2 wQ1 wQ2 compiler parts
    fails1 fails2 warns1 warns2 fs ws :
  fQ1 ≡ₚ fQ2 → wQ1 ≡ₚ wQ2 → fails1 ≡ₚ fails2 → warns1 ≡ₚ warns2 →
  out (pkg.process_parts env p ns fQ1 wQ1 compiler parts fails1 warns1)
  = Done (fs, ws, None) →
  ∃ fs' ws',
    out (pkg.process_parts env p ns fQ2 wQ2 compiler parts fails2 warns2)
    = Done (fs', ws', None)
    ∧ fs ≡ₚ fs' ∧ ws ≡ₚ ws'.
Proof.
  intros HfQ HwQ. revert fails1 fails2 warns1 warns2.
  induction parts as [|part parts IH]; intros fails1 fails2 warns1 warns2
    Hfails Hwarns; cbn [pkg.process_parts].
  - intros [= <- <-]. by exists fails2, warns2.
  - destruct (p part) as [input|]; [|done].
    bind_cases (pkg.run_queries env ns fQ1 input compiler fails1) f1 Ef;
      [|done].
    bind_cases (pkg.run_queries env ns wQ1 input compiler warns1) w1 Ew;
      [|done].
    intros Hd.
    destruct (run_queries_permuted _ _ _ _ _ _ fails2 _ HfQ Hfails Ef)
      as (f2 & Ef2 & Hf).
    destruct (run_queries_permuted _ _ _ _ _ _ warns2 _ HwQ Hwarns Ew)
      as (w2 & Ew2 & Hw).
    rewrite Ef2. cbv beta iota. rewrite out_bind, Ew2. cbv beta iota.
    by apply (IH f1 f2 w1 w2).
Qed.

(** X19. The order in which the module map is visited changes only the
    order of the entries: if the processing of a file completes under one
    visiting order, it completes under any other, and the two failures
    lists hold the same entries with the same multiplicities, as do the
    two warnings lists. *)
Theorem processFile_any_module_order (sched1 sched2 : pkg.schedule)
    (ns fileName : string) (parts : list (list byte)) (a : ast.Compiler)
    (fs ws : list (option error)) :
  pkg.visits_all sched1 → pkg.visits_all sched2 →
  out (pkg.processFile env sched1 ns fileName parts (Some a))
  = Done (fs, ws, None) →
  ∃ fs' ws',
    out (pkg.processFile env sched2 ns fileName parts (Some a))
    = Done (fs', ws', None)
    ∧ fs ≡ₚ fs' ∧ ws ≡ₚ ws'.
Proof.
  intros (H1 & _) (H2 & _). unfold pkg.processFile.
  destruct (parsers.Get (yaml_Unmarshal env) fileName) as [p|]; [|done].
  assert (pkg.order_Modules sched1 fileName (ast.Modules a)
          ≡ₚ pkg.order_Modules sched2 fileName (ast.Modules a)) as Hp.
  { by rewrite H1, H2. }
  apply process_parts_permuted; [| |done|done].
  - rewrite !classify_spec. cbn [fst]. by rewrite Hp.
  - rewrite !classify_spec. cbn [snd]. by rewrite Hp.
Qed.
End ModuleOrder.

(** Two modules with one denial rule each, visited in both orders. *)
Lemma processFile_any_module_order_witness :
  let env :=
    Fixture.world [("a.rego", ["deny_a"]); ("b.rego", ["deny_b"])] [] []
                  Fixture.echo in
  let a := {| ast.Modules := {[ "a.rego" := Fixture.module ["deny_a"];
                                "b.rego" := Fixture.module ["deny_b"] ]};
              ast.Errors := None |} in
  ∃ fs' ws',
    out (pkg.processFile env Fixture.reversed "main" "/c/a.yaml"
           [Fixture.bytes "kind: A"] (Some a))
    = Done (fs', ws', None)
    ∧ [Some (errorString "data.main.deny_a");
       Some (errorString "data.main.deny_b")] ≡ₚ fs'
    ∧ [] ≡ₚ ws'.
Proof.
  intros env a.
  apply (processFile_any_module_order env pkg.listed Fixture.reversed).
  - apply listed_visits_all.
  - apply reversed_visits_all.
  - vm_compute. reflexivity.
Defined.

(** ** The number of calls for one file *)

Section Calls.
Context (env : Env).

(** C8, amended. For a file of K parts, with N denial names and M
    warning names, the dispatcher is never called more than K × (N + M)
    times. When the processing of the file completes, it was called
    exactly K × (N + M) times: once per part and name, parts in source
    order, denial names before warning names; the failures list has
    K × N entries and the warnings list K × M; and a file without
    separator is one part, the whole file, with N + M calls. The
    processing completes whenever the file has a supported extension,
    every part decodes, and the engine puts only strings in its list
    values. *)
Theorem evaluation_calls (sched : pkg.schedule) (ns fileName : string)
    (parts : list (list byte)) (a : ast.Compiler) :
  let m := pkg.processFile env sched ns fileName parts (Some a) in
  let qs :=
    pkg.classify (pkg.order_Modules sched fileName (ast.Modules a)).*2 in
  length (trace m) ≤ length parts * (length qs.1 + length qs.2)
  ∧ (∀ fs ws,
       out m = Done (fs, ws, None) →
       length (trace m) = length parts * (length qs.1 + length qs.2)
       ∧ (∃ inputs,
            Forall2 (λ part input, yaml_Unmarshal env part = Ok input)
                    parts inputs
            ∧ trace m = inputs ≫= queries_for ns qs.1 qs.2)
       ∧ length fs = length parts * length qs.1
       ∧ length ws = length parts * length qs.2
       ∧ (∀ data, ¬ occurs_in pkg.separator data →
            parts = bytes_Split data pkg.separator →
            parts = [data] ∧ length (trace m) = length qs.1 + length qs.2))
  ∧ (filepath_Ext fileName ∈ supported →
     Forall (λ part, ∃ input, yaml_Unmarshal env part = Ok input) parts →
     well_typed env →
     ∃ fs ws, out m = Done (fs, ws, None)).
Proof.
  intros m qs. split_and!.
  - apply evaluation_calls_bound.
  - intros fs ws Hm.
    assert (∃ inputs,
              Forall2 (λ part input, yaml_Unmarshal env part = Ok input)
                      parts inputs
              ∧ trace m = inputs ≫= queries_for ns qs.1 qs.2
              ∧ length fs = length parts * length qs.1
              ∧ length ws = length parts * length qs.2)
      as (inputs & HF & Htr & Hfs & Hws).
    { subst m qs. unfold pkg.processFile in *.
      destruct (parsers.Get (yaml_Unmarshal env) fileName) as [p|] eqn:HG;
        [|done].
      assert (p = parsers.parseYAML (yaml_Unmarshal env)) as ->.
      { unfold parsers.Get in HG. by case_match; simplify_eq. }
      destruct (process_parts_Done env _ _ _ _ _ _ _ _ _ _ Hm)
        as (inputs & HF & Htr & Hfs & Hws).
      exists inputs. simpl in Hfs, Hws. split_and!; [|done..].
      eapply Forall2_impl; [exact HF|]. intros part input.
      unfold parsers.parseYAML.
      destruct (yaml_Unmarshal env part); [done|discriminate]. }
    assert (length (trace m) = length parts * (length qs.1 + length qs.2))
      as Hn.
    { rewrite Htr, queries_for_length. by rewrite (Forall2_length _ _ _ HF). }
    split_and!; [done|by exists inputs|done|done|].
    intros data Hno Hparts.
    apply (bytes_Split_single data pkg.separator separator_not_nil) in Hno.
    rewrite Hno in Hparts. split; [done|].
    rewrite Hn, Hparts. simpl. lia.
  - intros Hext Hparts Hwt. subst m qs. unfold pkg.processFile.
    rewrite (Get_supported env fileName Hext).
    apply (process_parts_returns env ns _ _ (Some a) parts [] [] Hwt Hparts).
Qed.
End Calls.

(** C8, as stated, fails. With one denial rule and one warning rule, the
    file [/c/a.yaml] splits into two parts, the second of which cannot
    be decoded: the run makes two calls, not 2 × (1 + 1); and the two
    parts of [/c/a.toml], an extension without decoder, get no call at
    all. *)
Lemma evaluation_calls_counterexample :
  let data :=
    Fixture.bytes ("kind: A" +:+ Fixture.nl +:+ "---" +:+ Fixture.nl +:+ "{") in
  let env :=
    Fixture.world [("main.rego", ["deny"; "warn"; "is_hpa"])] []
                  [("/c/a.yaml", data); ("/c/a.toml", data)] Fixture.quiet in
  bytes_Split data pkg.separator = [Fixture.bytes "kind: A"; Fixture.bytes "{"]
  ∧ pkg.classify [Fixture.module ["deny"; "warn"; "is_hpa"]]
    = (["deny"], ["warn"])
  ∧ trace (pkg.Run env pkg.listed (Fixture.checker ["/c/a.yaml"]))
    = [EvQuery "data.main.deny" (VString "kind: A");
       EvQuery "data.main.warn" (VString "kind: A")]
  ∧ trace (pkg.Run env pkg.listed (Fixture.checker ["/c/a.toml"])) = [].
Proof. split_and!; vm_compute; reflexivity. Qed.

(** An instance: a file of two parts that decode, with one denial rule
    and one warning rule, under an engine that reports nothing. *)
Lemma evaluation_calls_witness :
  let env :=
    Fixture.world [("main.rego", ["deny"; "warn"; "is_hpa"])] [] []
                  Fixture.quiet in
  let a := {| ast.Modules := {[ "main.rego" :=
                                 Fixture.module ["deny"; "warn"; "is_hpa"] ]};
              ast.Errors := None |} in
  let m := pkg.processFile env pkg.listed "main" "/c/a.yaml"
             [Fixture.bytes "kind: A"; Fixture.bytes "kind: B"] (Some a) in
  (∃ fs ws, out m = Done (fs, ws, None)) ∧ length (trace m) = 2 * (1 + 1).
Proof.
  intros env a m.
  destruct (evaluation_calls env pkg.listed "main" "/c/a.yaml"
              [Fixture.bytes "kind: A"; Fixture.bytes "kind: B"] a)
    as (_ & Hexact & Hcompletes).
  assert (∃ fs ws, out m = Done (fs, ws, None)) as (fs & ws & Hm).
  { apply Hcompletes.
    - replace (filepath_Ext "/c/a.yaml") with ".yaml"
        by (vm_compute; reflexivity).
      unfold supported. rewrite !elem_of_cons. auto.
    - repeat constructor; eexists; vm_compute; reflexivity.
    - intros pq rr Heval. injection Heval as <-. constructor. }
  split; [by exists fs, ws|].
  destruct (Hexact fs ws Hm) as (Hn & _). exact Hn.
Defined.

(** ** A part that cannot be decoded, when no evaluation panics *)

Section Aborting.
Context (env : Env).






End Aborting.


